(** * far_glob: rule normalisation and file selection of far.vim

    A shallow embedding of [rplugin/python3/far/sources/far_glob.py]:
    alternation expansion ([parse_or]), rule normalisation ([proc]), the
    sign split of ignore rules ([exception_ignore]), the ignore-file loader
    ([load_ignore_rules]), the resolver ([glob_rules], [far_glob]) and
    the arguments for ripgrep ([rg_ignore_globs], [rg_rules_glob]),
    followed by the properties established about them.

    Python strings are sequences of code points; they are modelled as lists
    of characters, restricted to the code points U+0000..U+00FF that [ascii]
    can hold.  Exceptions are values of [exn], and a computation that may
    raise returns a [result].  What the program asks of the interpreter and
    of the operating system is modelled where the program decides on it
    ([re], slicing, [pathlib] paths, [sorted]) and taken as given where it
    does not (the character database, home directories, the file system).

    The file has the definitions first: the program, the vocabulary of the
    statements, and a small world to evaluate in.  The lemmas follow in the
    order of the program, and the statements at concrete inputs close the
    file. *)

From stdpp Require Import base list strings gmap sorting.
From Stdlib Require Import Ascii ZArith.

Set Default Proof Using "Type".

(* ================================================================== *)
(** ** Strings and string literals *)

Abbreviation str := (list ascii).

(** Literals: ["ab"] stands for the list of its characters. *)
Definition literal := list ascii.

Inductive quoted := QNil | QCons (c : ascii) (l : quoted).

Fixpoint quoted_of_bytes (b : list Byte.byte) : quoted :=
  match b with
  | [] => QNil
  | x :: r => QCons (ascii_of_byte x) (quoted_of_bytes r)
  end.

Fixpoint bytes_of_quoted (s : quoted) : list Byte.byte :=
  match s with
  | QNil => []
  | QCons c r => byte_of_ascii c :: bytes_of_quoted r
  end.

Declare Scope py_scope.
Delimit Scope py_scope with py.
#[warnings="-via-type-mismatch,-via-type-remapping"]
String Notation literal quoted_of_bytes bytes_of_quoted
  (via quoted mapping [[nil] => QNil, [cons] => QCons]) : py_scope.
Open Scope py_scope.

(** Code point of a character. *)
Definition ord (c : ascii) : nat := nat_of_ascii c.

(** The parts of the Unicode character database that the interpreter
    consults for code points above U+007F.  They belong to the interpreter,
    not to this program, so every definition is parametric in them. *)
Class Unicode := {
  uni_alnum : ascii → bool;   (* str.isalnum on a non-ASCII character *)
  uni_space : ascii → bool    (* str.isspace on a non-ASCII character *)
}.

(** The classification of the Latin-1 supplement, for closed examples. *)
Definition latin1_alnum (c : ascii) : bool :=
  let n := ord c in
  (n =? 170) || (n =? 178) || (n =? 179) || (n =? 181) || (n =? 185)
  || (n =? 186) || ((188 <=? n) && (n <=? 190))
  || ((192 <=? n) && (n <=? 214)) || ((216 <=? n) && (n <=? 246))
  || (248 <=? n).

Definition latin1_space (c : ascii) : bool :=
  let n := ord c in (n =? 133) || (n =? 160).

Definition latin1 : Unicode :=
  {| uni_alnum := latin1_alnum; uni_space := latin1_space |}.

(* ================================================================== *)
(** ** Exceptions and results *)

Inductive exn :=
| IndexError
| ValueError
| NotImplementedError
| RuntimeError
| FileNotFoundError
| PermissionError
| IsADirectoryError
| NotADirectoryError
| UnicodeDecodeError               (* a UnicodeError, hence a ValueError *)
| GlobError (cause : exn)          (* class GlobError(ValueError) *)
| IgnoreFileError (cause : exn).   (* class IgnoreFileError(ValueError) *)

(** [isinstance(e, ValueError)]: the two classes of this module derive
    from ValueError, and so does UnicodeDecodeError. *)
Definition is_ValueError (e : exn) : bool :=
  match e with
  | ValueError | UnicodeDecodeError | GlobError _ | IgnoreFileError _ => true
  | _ => false
  end.

Definition is_FileNotFoundError (e : exn) : bool :=
  match e with FileNotFoundError => true | _ => false end.

Inductive result (A : Type) :=
| Ok (a : A)
| Raise (e : exn).
Arguments Ok {A} a.
Arguments Raise {A} e.

(** Sequencing: an exception of the first computation skips the rest. *)
Definition bind {A B} (r : result A) (k : A → result B) : result B :=
  match r with
  | Ok a => k a
  | Raise e => Raise e
  end.

Notation "'do' x <- r ; k" := (bind r (λ x, k))
  (at level 10, x pattern, r at level 100, k at level 200,
   format "'[v' 'do'  x  <-  r ;  '/' k ']'").

(** [try: r except C as e: raise W(e)], with [C] given as a test on the
    exception. *)
Definition rewrap {A} (caught : exn → bool) (wrap : exn → exn)
    (r : result A) : result A :=
  match r with
  | Ok a => Ok a
  | Raise e => if caught e then Raise (wrap e) else Raise e
  end.

(** A loop whose body may raise: the first exception ends it. *)
Fixpoint for_each {A S} (body : S → A → result S) (l : list A) (s : S)
    : result S :=
  match l with
  | [] => Ok s
  | x :: l' => do s' <- body s x; for_each body l' s'
  end.

(** A list comprehension whose element expression may raise. *)
Fixpoint comprehension {A B} (f : A → result B) (l : list A)
    : result (list B) :=
  match l with
  | [] => Ok []
  | x :: l' => do y <- f x; do ys <- comprehension f l'; Ok (y :: ys)
  end.

(* ================================================================== *)
(** ** Indexing, slicing, splitting *)

(** A negative index counts from the end. *)
Definition norm_index (n : nat) (i : Z) : Z :=
  if (i <? 0)%Z then (i + Z.of_nat n)%Z else i.

(** [s[i]] *)
Definition getitem (s : str) (i : Z) : result ascii :=
  let j := norm_index (length s) i in
  if (j <? 0)%Z then Raise IndexError
  else match s !! Z.to_nat j with
       | Some c => Ok c
       | None => Raise IndexError
       end.

(** Bounds of a slice are clipped to the string. *)
Definition clip (n : nat) (i : Z) : nat :=
  Z.to_nat (Z.min (Z.max (norm_index n i) 0) (Z.of_nat n)).

(** [s[lo:hi]], an omitted bound being [None]. *)
Definition slice (s : str) (lo hi : option Z) : str :=
  let n := length s in
  let a := from_option (clip n) 0 lo in
  let b := from_option (clip n) n hi in
  take (b - a) (drop a s).

(** [s.split(sep)] for a separator of one character. *)
Fixpoint split (sep : ascii) (s : str) : list str :=
  match s with
  | [] => [ [] ]
  | c :: t =>
      if decide (c = sep) then [] :: split sep t
      else match split sep t with
           | h :: r => (c :: h) :: r
           | [] => [ [c] ]
           end
  end.

(** The longest prefix of characters satisfying [p], and what follows it. *)
Fixpoint take_while (p : ascii → bool) (s : str) : str :=
  match s with
  | c :: t => if p c then c :: take_while p t else []
  | [] => []
  end.

Fixpoint drop_while (p : ascii → bool) (s : str) : str :=
  match s with
  | c :: t => if p c then drop_while p t else s
  | [] => []
  end.

(** [sep.join(l)] *)
Fixpoint join (sep : str) (l : list str) : str :=
  match l with
  | [] => []
  | [x] => x
  | x :: r => x ++ sep ++ join sep r
  end.

(* ================================================================== *)
(** ** The regular expression of [parse_or]

    Written with blanks between its parts, the pattern is
    [(?P<pre> .* ) (?P<or> \( (\w+ \|)* \w+ \) ) (?P<post> .* )], and it
    is used with [search].  The matcher follows the backtracking order of
    the [re] module: leftmost start first, then the longest [pre]. *)

Section Regex.
Context `{Unicode}.

(** [\w] of a str pattern: alphanumeric or underscore. *)
Definition ascii_word (c : ascii) : bool :=
  let n := ord c in
  ((48 <=? n) && (n <=? 57)) || ((65 <=? n) && (n <=? 90))
  || (n =? 95) || ((97 <=? n) && (n <=? 122)).

Definition is_word (c : ascii) : bool :=
  if ord c <? 128 then ascii_word c else uni_alnum c.

(** [.] matches everything but a newline. *)
Definition dot (c : ascii) : bool := negb (ord c =? 10).

(** [(\w+ \|)* \w+ \)], from the character after the opening parenthesis.
    [seen] tells that the current [\w+] has read a character; the result is
    the text consumed and the text left.  A word character can only extend
    the current [\w+], a bar or a closing parenthesis can only end it, so no
    other way of matching exists to fall back on. *)
Fixpoint or_body (seen : bool) (s : str) : option (str * str) :=
  match s with
  | [] => None
  | c :: t =>
      if is_word c then
        '(b, r) ← or_body true t; Some (c :: b, r)
      else if seen && bool_decide (c = "|"%char) then
        '(b, r) ← or_body false t; Some (c :: b, r)
      else if seen && bool_decide (c = ")"%char) then Some ([c], t)
      else None
  end.

(** The group [or] at the start of [s]. *)
Definition match_or (s : str) : option (str * str) :=
  match s with
  | c :: t =>
      if bool_decide (c = "("%char) then
        '(b, r) ← or_body false t; Some (c :: b, r)
      else None
  | [] => None
  end.

Record rmatch := { group_pre : str; group_or : str; group_post : str }.

(** The group [post]: greedy, and nothing follows it. *)
Definition match_post (s : str) : str := take_while dot s.

(** The pattern with an empty [pre]. *)
Definition match_here (s : str) : option rmatch :=
  '(o, r) ← match_or s;
  Some {| group_pre := []; group_or := o; group_post := match_post r |}.

(** The whole pattern anchored at the start of [s]: [pre] is greedy, so a
    longer [pre] is tried before a shorter one. *)
Fixpoint match_at (s : str) : option rmatch :=
  match s with
  | [] => match_here []
  | c :: t =>
      if dot c then
        match match_at t with
        | Some m => Some {| group_pre := c :: group_pre m;
                            group_or := group_or m;
                            group_post := group_post m |}
        | None => match_here s
        end
      else match_here s
  end.

(** [rgx.search(rule)]: the first start position with a match. *)
Fixpoint rgx_search (s : str) : option rmatch :=
  match match_at s with
  | Some m => Some m
  | None => match s with
            | [] => None
            | _ :: t => rgx_search t
            end
  end.

(* ================================================================== *)
(** ** parse_or *)

(** The body of [for rule in rules_origin], on the loop state
    [(new_rules, added_new_rule)]. *)
Definition expand_rule (st : list str * bool) (rule : str)
    : list str * bool :=
  let '(new_rules, added_new_rule) := st in
  match rgx_search rule with
  | Some m =>
      let elts := split "|" (slice (group_or m) (Some 1%Z) (Some (-1)%Z)) in
      (new_rules ++ ((λ elt, group_pre m ++ elt ++ group_post m) <$> elts),
       true)
  | None => (new_rules ++ [rule], added_new_rule)
  end.

(** One call of [parse_or] up to its last two statements. *)
Definition expand_pass (rules_origin : list str) : list str * bool :=
  foldl expand_rule ([], false) rules_origin.

(** The recursion of [parse_or], cut off after [fuel] calls. *)
Fixpoint parse_or_fuel (fuel : nat) (rules_origin : list str)
    : option (list str) :=
  match fuel with
  | 0 => None
  | S fuel' =>
      let '(new_rules, added_new_rule) := expand_pass rules_origin in
      if negb added_new_rule then Some new_rules
      else parse_or_fuel fuel' new_rules
  end.

(** Every expansion removes an opening parenthesis from the rule, which
    bounds the depth of the recursion. *)
Definition count_open (s : str) : nat :=
  length (filter (λ c, c = "("%char) s).

Definition parse_or_depth (rules : list str) : nat :=
  S (max_list (count_open <$> rules)).

(** What [parse_or] returns.  The interpreter bounds the number of nested
    calls and raises RecursionError beyond its bound: with that bound as
    [fuel], [parse_or_fuel] is the run of the source, [None] standing for
    the RecursionError.  [parse_or] is the result of the run that is not
    cut off, which the number of opening parentheses bounds; what is
    stated of [parse_or], [proc] and [far_glob] is stated of such runs. *)
Definition parse_or (rules_origin : list str) : list str :=
  default rules_origin
    (parse_or_fuel (parse_or_depth rules_origin) rules_origin).

End Regex.


(* ================================================================== *)
(** ** proc and exception_ignore *)

Section Rules.
Context `{Unicode}.

(** The body of [for rule_origin in rules_origin] of [proc], on the list
    [rules] built so far. *)
Definition proc_rule (rules : list str) (rule_origin : str)
    : result (list str) :=
  let rule := rule_origin in
  do last_char <- getitem rule (-1);
  let rule :=
    if bool_decide (last_char = "/"%char) then rule ++ "**/*"
    else if bool_decide (slice rule (Some (-3)%Z) None = "/**")
         then rule ++ "/*"
    else if bool_decide (slice rule (Some (-4)%Z) None = "/**/")
         then rule ++ "*"
    else rule in
  do first_char <- getitem rule 0;
  let '(rule, rules) :=
    if bool_decide (first_char = "/"%char)
    then (slice rule (Some 1%Z) None, rules)
    else let rule := "**/" ++ rule in (rule, rules ++ [rule ++ "/**/*"]) in
  Ok (if bool_decide (rule ≠ "") then rules ++ [rule] else rules).

Definition proc (rules_origin : list str) : result (list str) :=
  let rules_origin := parse_or rules_origin in
  for_each proc_rule rules_origin [].

(** The body of the loop of [exception_ignore], on the pair
    [(ignore_rules, exception_ignore_rules)]. *)
Definition exception_ignore_rule (st : list str * list str) (rule : str)
    : result (list str * list str) :=
  let '(ignore_rules, exception_ignore_rules) := st in
  do first_char <- getitem rule 0;
  Ok (if bool_decide (first_char = "!"%char)
      then (ignore_rules,
            exception_ignore_rules ++ [slice rule (Some 1%Z) None])
      else (ignore_rules ++ [rule], exception_ignore_rules)).

Definition exception_ignore (ignore_rules_origin : list str)
    : result (list str * list str) :=
  for_each exception_ignore_rule ignore_rules_origin ([], []).

End Rules.

(* ================================================================== *)
(** ** Paths

    A path is the tuple that [PurePosixPath.parts] shows: the root ["/"]
    (or ["//"]) first when there is one, then the names.  Equality and
    hashing of paths are those of this tuple. *)

Definition path := list str.

Definition is_sep (c : ascii) : bool := bool_decide (c = "/"%char).

(** [splitroot]: the root and the rest; exactly two leading slashes are
    kept as a root of their own. *)
Definition splitroot (part : str) : str * str :=
  match part with
  | c :: _ =>
      if is_sep c then
        let stripped_part := drop_while is_sep part in
        if length part - length stripped_part =? 2
        then ("//", stripped_part)
        else ("/", stripped_part)
      else ("", part)
  | [] => ("", part)
  end.

(** The names of a relative path text: empty names and ["."] vanish. *)
Definition parse_names (rel : str) : list str :=
  filter (λ x, x ≠ "" ∧ x ≠ ".") (split "/" rel).

(** [pathlib.Path(s)] *)
Definition parse_path (s : str) : path :=
  let '(root, rel) := splitroot s in
  (if bool_decide (root ≠ "") then [root] else []) ++ parse_names rel.

Definition has_root (p : path) : bool :=
  match p with
  | (c :: _) :: _ => is_sep c
  | _ => false
  end.

(** [str(p)] *)
Definition path_str (p : path) : str :=
  match p with
  | [] => "."
  | a :: names => if has_root p then a ++ join "/" names else join "/" p
  end.

(** [f.relative_to(other)], [other] being given as a string. *)
Definition relative_to (f : path) (other : str) : result path :=
  let to := parse_path other in
  let n := length to in
  if bool_decide (n = 0) then
    if has_root f then Raise ValueError else Ok f
  else if bool_decide (take n f = to) then Ok (drop n f)
  else Raise ValueError.

(** [str(f.relative_to(other))] *)
Definition relative_str (f : path) (other : str) : result str :=
  do rel <- relative_to f other; Ok (path_str rel).

(* ================================================================== *)
(** ** The world outside: home directories and the file system *)

(** What [stat] finds at a path. *)
Inductive node :=
| RegularFile
| Directory
| Other.       (* a device, a pipe, a socket *)

(** The program does not decide what the operating system answers: the
    answers are taken as they come.  In particular nothing ties the
    answer of [open] to what [stat] finds: a path that names nothing may
    fail with FileNotFoundError, NotADirectoryError or ValueError, and a
    regular file may be unreadable or undecodable. *)
Record World := {
  (** the value of [os.path.expanduser], when it returns *)
  os_expanduser : str → str;
  (** the exception that [os.path.expanduser] raises instead, if any (a
      user name that holds a NUL character raises ValueError) *)
  expanduser_error : str → option exn;
  (** what a path text names, if anything *)
  lookup_path : str → option node;
  (** [open(p, 'r')] and the reading of the whole file: its lines, or the
      exception of the first step that fails *)
  open_read : str → result (list str);
  (** the matches of a glob pattern below a directory, each as its path
      relative to that directory; an unacceptable pattern raises *)
  scan : path → str → result (list str)
}.

(** [os.path.expanduser(s)] *)
Definition os_path_expanduser (W : World) (s : str) : result str :=
  match expanduser_error W s with
  | Some e => Raise e
  | None => Ok (os_expanduser W s)
  end.

(** [open(p, 'r')] followed by the iteration over the lines. *)
Definition open_r (W : World) (p : str) : result (list str) :=
  open_read W p.

(** [pathlib.Path.is_file(f)] *)
Definition is_file (W : World) (f : path) : bool :=
  match lookup_path W (path_str f) with
  | Some RegularFile => true
  | _ => false
  end.

(** [p.expanduser()] *)
Definition expanduser (W : World) (p : path) : result path :=
  match p with
  | first :: names =>
      if negb (has_root p) && bool_decide (slice first None (Some 1%Z) = "~")
      then
        do homedir <- os_path_expanduser W first;
        if bool_decide (slice homedir None (Some 1%Z) = "~")
        then Raise RuntimeError
        else Ok (parse_path homedir ++ names)
      else Ok p
  | [] => Ok p
  end.

(** [root.glob(pattern)]: every match is the root extended by names. *)
Definition glob (W : World) (root : path) (pattern : str)
    : result (list path) :=
  do rels <- scan W root pattern;
  Ok ((λ rel, root ++ parse_names rel) <$> rels).

(* ================================================================== *)
(** ** glob_rules, load_ignore_rules, far_glob *)

(** Lexicographic order on code points, the order of [sorted]. *)
Fixpoint str_leb (s t : str) : bool :=
  match s, t with
  | [], _ => true
  | _ :: _, [] => false
  | a :: s', b :: t' =>
      if ord a <? ord b then true
      else if ord a =? ord b then str_leb s' t'
      else false
  end.

Definition str_le : relation str := λ s t, Is_true (str_leb s t).

Global Instance str_le_dec : RelDecision str_le.
Proof. intros s t. unfold str_le. apply _. Defined.

Definition sorted (l : list str) : list str := merge_sort str_le l.

Section Resolver.
Context `{Unicode}.
Context (W : World).

Definition glob_rules (root : str) (rules : list str) : result (gset path) :=
  do root <- expanduser W (parse_path root);
  rewrap is_ValueError GlobError
    (for_each
       (λ (files : gset path) rule,
          do matches <- glob W root rule;
          Ok (files ∪ list_to_set (filter (λ f, is_file W f = true) matches)))
       rules ∅).

Definition ascii_space (c : ascii) : bool :=
  let n := ord c in
  ((9 <=? n) && (n <=? 13)) || ((28 <=? n) && (n <=? 32)).

Definition is_space (c : ascii) : bool :=
  if ord c <? 128 then ascii_space c else uni_space c.

(** [line.strip()] *)
Definition strip (s : str) : str :=
  reverse (drop_while is_space (reverse (drop_while is_space s))).

(** [re.search(r'^\s*#', line)]: blanks, then a hash sign, from the start
    of the line only. *)
Definition comment_search (line : str) : bool :=
  match drop_while is_space line with
  | c :: _ => bool_decide (c = "#"%char)
  | [] => false
  end.

(** The body of [for line in f], on the list [ignore_rules]. *)
Definition load_line (ignore_rules : list str) (line : str) : list str :=
  let line := strip line in
  if bool_decide (2 ≤ length line)
     && bool_decide (slice line None (Some 2%Z) = "//")
  then ignore_rules
  else if bool_decide (line = "") || comment_search line then ignore_rules
  else ignore_rules ++ [line].

(** [open(expanduser(file_path), 'r')] and the lines that [for line in f]
    reads. *)
Definition open_expanded (file_path : str) : result (list str) :=
  do p <- os_path_expanduser W file_path; open_r W p.

Definition load_ignore_rules (file_path : str) : result (list str) :=
  rewrap is_FileNotFoundError IgnoreFileError
    (do lines <- open_expanded file_path;
     Ok (foldl load_line [] lines)).

Definition far_glob (root : str) (rules ignore_rules : list str)
    : result (list str) :=
  do (ignore_rules, exception_ignore_rules) <-
    exception_ignore ignore_rules;
  do rules <- proc rules;
  do ignore_rules <- proc ignore_rules;
  do exception_ignore_rules <- proc exception_ignore_rules;
  do files <- glob_rules root rules;
  do ignore_files <- glob_rules root ignore_rules;
  do exception_ignore_files <- glob_rules root exception_ignore_rules;
  do files <-
    comprehension (λ f, relative_str f root)
      (filter (λ f, ¬ (f ∈ ignore_files ∧ f ∉ exception_ignore_files))
              (elements files));
  Ok (sorted files).

End Resolver.

(* ================================================================== *)
(** ** The arguments for ripgrep: rg_rules_glob, rg_ignore_globs

    Both functions give the globs either as one text or as a list of
    arguments.  The globs to ignore are collected in a set, whose order
    of iteration the program does not decide: it is the parameter
    [set_order], which lists a set given by its elements in the order
    they were added. *)

(* ================================================================== *)
(** ** rg_ignore_globs and rg_rules_glob *)

(** The double quote of the f-strings. *)
Definition quote : str := ["034"%char].

(** What the two functions return: one string when [as_str] holds, the
    arguments one by one otherwise. *)
Inductive flags :=
| Joined (s : str)
| Args (l : list str).

Definition rg_rules_glob (rules : list str) (as_str : bool) : flags :=
  let rules := filter (λ r, r ∉ ["*"; "**/*"]) rules in
  if as_str
  then Joined (join " " ((λ dir, "-g " ++ quote ++ dir ++ quote) <$> rules))
  else Args (d ← rules; g ← [true; false]; [if g : bool then "-g" else d]).

Section Adapter.
Context `{Unicode}.
Context (W : World).

(** The order in which a set is iterated is not fixed by its elements;
    [set_order l] is the order of the set built from the elements of [l]
    in turn. *)
Context (set_order : list str → list str).

(** [os.path.exists(p)] *)
Definition path_exists (p : str) : bool :=
  bool_decide (is_Some (lookup_path W p)).

(** [open(p, 'r').read()]: the lines of the file, one after the other. *)
Definition read_text (p : str) : result str :=
  do lines <- open_r W p; Ok (mjoin lines).

Definition rg_ignore_globs (files : list str) (as_str : bool)
    : result flags :=
  do sublists <-
    comprehension
      (λ ignore_file,
         do text <- read_text ignore_file; Ok (split "010" text))
      (filter (λ ignore_file, path_exists ignore_file = true) files);
  let ignored :=
    set_order
      (filter (λ ignore_glob,
                 0 < length (strip ignore_glob) ∧ "#"%char ∉ ignore_glob)
              (mjoin sublists)) in
  Ok (if as_str
      then Joined (join " " ((λ dir, "-g " ++ quote ++ "!" ++ dir ++ quote)
                               <$> ignored))
      else Args (d ← ignored; g ← [true; false];
                 [if g : bool then "-g" else "!" ++ d])).

End Adapter.

(* vocabulary *)


(* ================================================================== *)
(** ** Vocabulary of the statements *)

Section Vocabulary.
Context `{Unicode}.

(** One alternative: one or more word characters. *)
Definition word (w : str) : Prop :=
  w ≠ [] ∧ Forall (λ c, is_word c = true) w.

(** The alternatives of a group: at least one, each a word. *)
Definition alternatives (alts : list str) : Prop :=
  alts ≠ [] ∧ Forall word alts.

(** The text of the group with the given alternatives. *)
Definition group_text (alts : list str) : str :=
  "(" ++ join "|" alts ++ ")".

(** The rule contains an alternation group somewhere. *)
Definition has_group (s : str) : Prop :=
  ∃ pre alts post, alternatives alts ∧ s = pre ++ group_text alts ++ post.

(** No newline occurs in the text. *)
Definition one_line (s : str) : Prop := Forall (λ c, dot c = true) s.

Global Instance word_dec w : Decision (word w).
Proof. unfold word. apply _. Defined.
Global Instance alternatives_dec alts : Decision (alternatives alts).
Proof. unfold alternatives. apply _. Defined.
Global Instance one_line_dec s : Decision (one_line s).
Proof. unfold one_line. apply _. Defined.

(** The rules a pass makes of a rule whose group is replaced in turn by
    each of its alternatives. *)
Definition replace_group (pre : str) (alts : list str) (post : str)
    : list str :=
  (λ alt, pre ++ alt ++ post) <$> alts.

(** The rules that one pass makes of one rule, and whether the rule
    matched. *)
Definition expansions (rule : str) : list str :=
  fst (expand_rule ([], false) rule).

Definition matches (rule : str) : bool :=
  snd (expand_rule ([], false) rule).

(** What is left of the recursion once a rule matches: the depth of a
    rule that matches is its number of opening parentheses. *)
Definition depth (rule : str) : nat :=
  match rgx_search rule with
  | Some _ => count_open rule
  | None => 0
  end.

End Vocabulary.

Global Arguments group_text : simpl never.

Section ResolverVocabulary.
Context `{Unicode}.

(** The lines that [load_ignore_rules] keeps: trimmed, and neither empty
    nor starting with two slashes or with a hash sign. *)
Definition kept (line : str) : Prop :=
  line ≠ "" ∧ ¬ "//" `prefix_of` line ∧ ¬ "#" `prefix_of` line.

Definition kept_lines (lines : list str) : list str :=
  filter kept (strip <$> lines).

(** A name of a path: not empty, not ["."], and without a slash. *)
Definition valid_name (x : str) : Prop :=
  x ≠ "" ∧ x ≠ "." ∧ "/"%char ∉ x.

(** Paths as [pathlib] builds them: names after the root, if any. *)
Definition wf_path (p : path) : Prop :=
  Forall valid_name (if has_root p then tail p else p).

(** The three sets of files of a resolution. *)
Definition included (W : World) (root : str) (rules : list str)
    : result (gset path) :=
  do globs <- proc rules; glob_rules W root globs.

Definition ignored (W : World) (root : str) (ignore_rules : list str)
    : result (gset path) :=
  do (ignore_rules, _) <- exception_ignore ignore_rules;
  do globs <- proc ignore_rules; glob_rules W root globs.

Definition exception_ignored (W : World) (root : str)
    (ignore_rules : list str) : result (gset path) :=
  do (_, exception_ignore_rules) <- exception_ignore ignore_rules;
  do globs <- proc exception_ignore_rules; glob_rules W root globs.

End ResolverVocabulary.

(* ================================================================== *)
(** ** Vocabulary for the rewriting of [proc] and for the globs *)

Section ProcVocabulary.
Context `{Unicode}.

(** One pass over all rules. *)
Definition expand_all (rules : list str) : list str := rules ≫= expansions.

(** The tail rewriting of [proc], as the code performs it. *)
Definition tail_rewrite (rule : str) : str :=
  if decide ("/" `suffix_of` rule) then rule ++ "**/*"
  else if decide ("/**" `suffix_of` rule) then rule ++ "/*"
  else rule.

(** The globs that [proc] makes of one rule that is not empty. *)
Definition rule_globs (rule : str) : list str :=
  let rule := tail_rewrite rule in
  if decide ("/" `prefix_of` rule) then [drop 1 rule]
  else ["**/" ++ rule ++ "/**/*"; "**/" ++ rule].

(** The order of a set is some order of its elements, each once. *)
Definition set_order_ok (set_order : list str → list str) : Prop :=
  ∀ l, NoDup (set_order l) ∧ ∀ x, x ∈ set_order l ↔ x ∈ l.

End ProcVocabulary.

(** The matches of one rule below a directory, none when the pattern is
    refused. *)
Definition matches_of (W : World) (p : path) (rule : str) : list path :=
  match glob W p rule with
  | Ok matches => matches
  | Raise _ => []
  end.

(** The pattern is accepted by [glob]. *)
Definition accepted (W : World) (p : path) (rule : str) : Prop :=
  ∃ matches, glob W p rule = Ok matches.


(* ================================================================== *)
(** ** The pattern of [parse_or] as a regular expression *)

Inductive regex :=
| Chr (p : ascii → bool)       (* one character of a class *)
| Cat (r1 r2 : regex)
| Star (r : regex)
| Plus (r : regex).

(** The texts that a regular expression matches as a whole. *)
Inductive lang : regex → str → Prop :=
| lang_chr p c : p c = true → lang (Chr p) [c]
| lang_cat r1 r2 s1 s2 :
    lang r1 s1 → lang r2 s2 → lang (Cat r1 r2) (s1 ++ s2)
| lang_star_nil r : lang (Star r) []
| lang_star_cons r s1 s2 :
    lang r s1 → lang (Star r) s2 → lang (Star r) (s1 ++ s2)
| lang_plus r s1 s2 :
    lang r s1 → lang (Star r) s2 → lang (Plus r) (s1 ++ s2).

Definition Lit (c : ascii) : regex := Chr (λ x, bool_decide (x = c)).

Section Pattern.
Context `{Unicode}.

Definition rgx_pre : regex := Star (Chr dot).

Definition rgx_or : regex :=
  Cat (Lit "(")
      (Cat (Star (Cat (Plus (Chr is_word)) (Lit "|")))
           (Cat (Plus (Chr is_word)) (Lit ")"))).

Definition rgx_post : regex := Star (Chr dot).

Definition rgx : regex := Cat rgx_pre (Cat rgx_or rgx_post).

(** The pattern matches at the start of [t], with the given [pre] and
    [or]. *)
Definition starts_with_match (t pre o : str) : Prop :=
  ∃ r, t = pre ++ o ++ r ∧ lang rgx_pre pre ∧ lang rgx_or o.

End Pattern.

(* ================================================================== *)
(** ** A small world for the concrete statements *)

Definition newline : str := ["010"%char].

(** The home of user u holds the directory proj with the files a.txt,
    sub/b.txt and sub/c.log, and a rule file. *)
Definition demo_scan (root : path) (pattern : str) : result (list str) :=
  if bool_decide (root = ["/"; "home"; "u"; "proj"]) then
    if bool_decide (pattern = "**/*")
    then Ok ["a.txt"; "sub"; "sub/b.txt"; "sub/c.log"]
    else if bool_decide (pattern = "**/*/**/*")
    then Ok ["sub/b.txt"; "sub/c.log"]
    else if bool_decide (pattern = "**/sub/**/*")
    then Ok ["sub/b.txt"; "sub/c.log"]
    else if bool_decide (pattern = "**/sub/b.txt")
    then Ok ["sub/b.txt"]
    else if bool_decide (pattern = "**/sub/c.log")
    then Ok ["sub/c.log"]
    else if bool_decide (pattern = "**/*.txt")
    then Ok ["a.txt"; "sub/b.txt"]
    else Ok []
  else Ok [].

Definition demo_lookup (p : str) : option node :=
  if bool_decide (p ∈ ["/home/u/proj/a.txt"; "/home/u/proj/sub/b.txt";
                       "/home/u/proj/sub/c.log"; "/home/u/.farignore";
                       "/home/u/.keep"; "/home/u/.secret";
                       "/home/u/.binary"])
  then Some RegularFile
  else if bool_decide (p ∈ ["/"; "/home"; "/home/u"; "/home/u/proj";
                            "/home/u/proj/sub"])
  then Some Directory
  else None.

Definition nul : ascii := "000"%char.

(** What [open] and the reading answer in this tree: the rule file has
    four lines and a second rule file three, the files of the project
    are empty, one file of the home cannot be read and one cannot be
    decoded; a path that runs through the file a.txt, or that holds a NUL
    character, names nothing and is refused in its own way. *)
Definition demo_open (p : str) : result (list str) :=
  if bool_decide (nul ∈ p) then Raise ValueError
  else if bool_decide (p = "/home/u/.farignore")
  then Ok ["  # comment" ++ newline; newline; "//old-rule" ++ newline;
           "valid.txt" ++ newline]
  else if bool_decide (p = "/home/u/.keep")
  then Ok ["sub/" ++ newline; "!" ++ newline; "!sub/b.txt" ++ newline]
  else if bool_decide (p = "/home/u/.secret") then Raise PermissionError
  else if bool_decide (p = "/home/u/.binary") then Raise UnicodeDecodeError
  else match demo_lookup p with
       | Some RegularFile => Ok []
       | Some Directory => Raise IsADirectoryError
       | Some Other => Ok []
       | None =>
           if bool_decide ("/home/u/proj/a.txt/" `prefix_of` p)
           then Raise NotADirectoryError
           else Raise FileNotFoundError
       end.

Definition demo_expanduser (p : str) : str :=
  match p with
  | c :: rest =>
      if bool_decide (c = "~"%char)
         && bool_decide (rest = "" ∨ "/" `prefix_of` rest)
      then "/home/u" ++ rest
      else p
  | [] => p
  end.

(** A user name that holds a NUL character is refused. *)
Definition demo_expanduser_error (p : str) : option exn :=
  match p with
  | c :: rest =>
      if bool_decide (c = "~"%char)
         && bool_decide (nul ∈ take_while (λ x, negb (is_sep x)) rest)
      then Some ValueError
      else None
  | [] => None
  end.

Definition demo : World :=
  {| os_expanduser := demo_expanduser;
     expanduser_error := demo_expanduser_error;
     lookup_path := demo_lookup;
     open_read := demo_open;
     scan := demo_scan |}.

(** The same tree, with a [scan] that refuses the empty pattern and a
    pattern that starts with a slash, as [pathlib] does. *)
Definition strict_scan (root : path) (pattern : str) : result (list str) :=
  if bool_decide (pattern = "") then Raise ValueError
  else if bool_decide ("/" `prefix_of` pattern) then Raise NotImplementedError
  else demo_scan root pattern.

Definition strict : World :=
  {| os_expanduser := demo_expanduser;
     expanduser_error := demo_expanduser_error;
     lookup_path := demo_lookup;
     open_read := demo_open;
     scan := strict_scan |}.


(* ================================================================== *)
(** ** Indexing and slicing *)

Lemma getitem_nil i : getitem [] i = Raise IndexError.
Proof.
  unfold getitem, norm_index. simpl.
  destruct (Z.ltb_spec i 0) as [Hi|Hi];
    repeat (case_match; try done); lia.
Qed.

Lemma getitem_first c s : getitem (c :: s) 0 = Ok c.
Proof. done. Qed.

Lemma getitem_last s c : getitem (s ++ [c]) (-1) = Ok c.
Proof.
  unfold getitem, norm_index. simpl.
  rewrite length_app. simpl.
  destruct (Z.ltb_spec (-1 + Z.of_nat (length s + 1)) 0) as [Hi|Hi]; [lia|].
  replace (Z.to_nat _) with (length s) by lia.
  by rewrite (list_lookup_middle s [] c (length s)) by done.
Qed.

Lemma getitem_is_Ok s i c : getitem s i = Ok c → s ≠ [].
Proof. intros Hg ->. by rewrite getitem_nil in Hg. Qed.

Lemma clip_nonneg n (k : nat) : clip n (Z.of_nat k) = k `min` n.
Proof.
  unfold clip, norm_index.
  destruct (Z.ltb_spec (Z.of_nat k) 0); lia.
Qed.

Lemma clip_neg n (k : nat) : 0 < k → clip n (- Z.of_nat k) = n - k.
Proof.
  intros Hk. unfold clip, norm_index.
  destruct (Z.ltb_spec (- Z.of_nat k) 0); lia.
Qed.

Lemma slice_from s (k : nat) : slice s (Some (Z.of_nat k)) None = drop k s.
Proof.
  unfold slice. simpl. rewrite clip_nonneg.
  destruct (decide (k ≤ length s)).
  - rewrite Nat.min_l by done. apply take_ge. rewrite length_drop. lia.
  - rewrite Nat.min_r by lia. rewrite !drop_ge by lia. by rewrite take_nil.
Qed.

Lemma slice_to s (k : nat) : slice s None (Some (Z.of_nat k)) = take k s.
Proof.
  unfold slice. simpl. rewrite clip_nonneg, Nat.sub_0_r, drop_0.
  destruct (decide (k ≤ length s)).
  - by rewrite Nat.min_l.
  - rewrite Nat.min_r by lia.
    by rewrite (take_ge s (length s)), (take_ge s k) by lia.
Qed.

Lemma slice_tail s (k : nat) :
  0 < k → slice s (Some (- Z.of_nat k)%Z) None = drop (length s - k) s.
Proof.
  intros Hk. unfold slice. simpl. rewrite clip_neg by done.
  apply take_ge. rewrite length_drop. lia.
Qed.

(** [s[-k:] == t] for a [t] of [k] characters says that [s] ends with
    [t]. *)
Lemma slice_tail_eq s t :
  t ≠ [] →
  slice s (Some (- Z.of_nat (length t))%Z) None = t ↔ t `suffix_of` s.
Proof.
  intros Ht. rewrite slice_tail by (destruct t; simpl; [done|lia]).
  split.
  - intros Hd. exists (take (length s - length t) s).
    rewrite <-Hd at 2. by rewrite take_drop.
  - intros [u ->]. rewrite length_app.
    replace (length u + length t - length t) with (length u) by lia.
    by rewrite drop_app_length.
Qed.

Lemma slice_inner c s d :
  slice (c :: s ++ [d]) (Some 1%Z) (Some (-1)%Z) = s.
Proof.
  unfold slice. simpl.
  rewrite (clip_nonneg _ 1), (clip_neg _ 1) by lia.
  simpl. rewrite length_app. simpl. rewrite Nat.sub_0_r.
  replace (length s + 1 - 1) with (length s) by lia.
  by rewrite drop_0, take_app_length.
Qed.

Lemma take_while_all p s :
  Forall (λ c, p c = true) s → take_while p s = s.
Proof. induction 1 as [|c s Hc _ IH]; simpl; [done|]. by rewrite Hc, IH. Qed.

(* ================================================================== *)
(** ** split and join *)

Lemma split_not_nil sep s : split sep s ≠ [].
Proof.
  destruct s as [|c t]; simpl; [done|]. case_decide; [done|].
  by destruct (split sep t).
Qed.

Lemma split_no_sep sep s : sep ∉ s → split sep s = [s].
Proof.
  induction s as [|c t IH]; simpl; [done|].
  intros Hn. apply not_elem_of_cons in Hn as [Hc Ht].
  case_decide; [done|]. by rewrite IH.
Qed.

Lemma split_app_sep sep x s :
  sep ∉ x → split sep (x ++ sep :: s) = x :: split sep s.
Proof.
  induction x as [|c t IH]; simpl.
  - intros _. by case_decide.
  - intros Hn. apply not_elem_of_cons in Hn as [Hc Ht].
    case_decide; [done|]. by rewrite IH.
Qed.

Lemma join_cons sep x y l :
  join sep (x :: y :: l) = x ++ sep ++ join sep (y :: l).
Proof. done. Qed.

Lemma join_one sep x : join sep [x] = x.
Proof. done. Qed.

Lemma join_cons_char sep c w l :
  join sep ((c :: w) :: l) = c :: join sep (w :: l).
Proof. by destruct l. Qed.

Global Arguments join : simpl never.

Lemma split_join sep l :
  l ≠ [] → Forall (λ x, sep ∉ x) l → split sep (join [sep] l) = l.
Proof.
  intros Hl Hall. induction Hall as [|x l Hx Hall IH]; [done|].
  destruct l as [|y l].
  - rewrite join_one. by apply split_no_sep.
  - rewrite join_cons. cbn [app]. rewrite split_app_sep by done.
    f_equal. by apply IH.
Qed.

(* ================================================================== *)
(** ** The group [or]: what [match_or] accepts *)

Section RegexFacts.
Context `{Unicode}.

Lemma open_not_word : is_word "("%char = false.
Proof. done. Qed.
Lemma close_not_word : is_word ")"%char = false.
Proof. done. Qed.
Lemma bar_not_word : is_word "|"%char = false.
Proof. done. Qed.
Lemma newline_not_word c : dot c = false → is_word c = false.
Proof.
  unfold dot, is_word, ascii_word. intros Hd.
  apply negb_false_iff, Nat.eqb_eq in Hd. by rewrite Hd.
Qed.

Lemma word_chars w c : word w → c ∈ w → is_word c = true.
Proof. intros [_ Hw] Hc. by eapply (proj1 (Forall_forall _ _)) in Hw. Qed.

Lemma word_no_open w : word w → "("%char ∉ w.
Proof. intros Hw Hin. apply (word_chars _ _ Hw) in Hin. done. Qed.

Lemma word_no_bar w : word w → "|"%char ∉ w.
Proof. intros Hw Hin. apply (word_chars _ _ Hw) in Hin. done. Qed.

Lemma word_one_line w : word w → one_line w.
Proof.
  intros [_ Hw]. eapply Forall_impl; [exact Hw|]. simpl. intros c Hc.
  destruct (dot c) eqn:Hd; [done|]. apply newline_not_word in Hd. congruence.
Qed.

Lemma or_body_complete alts : ∀ w seen r,
  Forall (λ c, is_word c = true) w →
  seen = true ∨ w ≠ [] →
  Forall word alts →
  or_body seen (join "|" (w :: alts) ++ ")" ++ r)
  = Some (join "|" (w :: alts) ++ ")", r).
Proof.
  induction alts as [|a alts IH]; intros w; induction w as [|c w IHw];
    intros seen r Hw Hseen Halts.
  - destruct Hseen as [->|]; done.
  - apply Forall_cons in Hw as [Hc Hw].
    rewrite join_cons_char. simpl. rewrite Hc.
    specialize (IHw true r Hw (or_introl eq_refl) Halts).
    simpl in IHw. by rewrite IHw.
  - destruct Hseen as [->|]; [|done].
    apply Forall_cons in Halts as [[Ha Haw] Halts].
    rewrite join_cons. simpl.
    specialize (IH a false r Haw (or_intror Ha) Halts).
    simpl in IH. by rewrite IH.
  - apply Forall_cons in Hw as [Hc Hw].
    rewrite join_cons_char. simpl. rewrite Hc.
    specialize (IHw true r Hw (or_introl eq_refl) Halts).
    simpl in IHw. by rewrite IHw.
Qed.

Lemma or_body_sound s : ∀ seen b r,
  or_body seen s = Some (b, r) →
  s = b ++ r ∧
  ∃ w alts, b = join "|" (w :: alts) ++ ")"
            ∧ Forall (λ c, is_word c = true) w
            ∧ (seen = true ∨ w ≠ [])
            ∧ Forall word alts.
Proof.
  induction s as [|c t IH]; intros seen b r; [done|]. simpl.
  destruct (is_word c) eqn:Hc.
  - destruct (or_body true t) as [[b' r']|] eqn:Hb; [|done].
    intros [= <- <-]. destruct (IH _ _ _ Hb) as (-> & w & alts & -> & Hw & _ & Ha).
    split; [done|]. exists (c :: w), alts. rewrite join_cons_char.
    repeat split; auto.
  - destruct seen; simpl; [|done].
    case_bool_decide as Hbar; [|case_bool_decide as Hclose; [|done]].
    + destruct (or_body false t) as [[b' r']|] eqn:Hb; [|done].
      intros [= <- <-]. subst c.
      destruct (IH _ _ _ Hb) as (-> & w & alts & -> & Hw & [?|Hne] & Ha);
        [done|].
      split; [done|]. exists [], (w :: alts). repeat split; auto.
      constructor; [by split|done].
    + intros [= <- <-]. subst c. split; [done|].
      exists [], []. repeat split; auto.
Qed.

(** [match_or] accepts exactly the texts of groups. *)
Lemma match_or_iff s o r :
  match_or s = Some (o, r) ↔
  s = o ++ r ∧ ∃ alts, alternatives alts ∧ o = group_text alts.
Proof.
  split.
  - destruct s as [|c t]; [done|]. simpl.
    case_bool_decide as Hc; [|done]. subst c.
    destruct (or_body false t) as [[b r']|] eqn:Hb; [|done].
    intros [= <- <-].
    destruct (or_body_sound _ _ _ _ Hb)
      as (-> & w & alts & -> & Hw & [?|Hne] & Ha); [done|].
    split; [done|]. exists (w :: alts). split; [|done].
    split; [done|]. constructor; [by split|done].
  - intros (-> & alts & [Hne Hall] & ->).
    destruct alts as [|a alts]; [done|].
    apply Forall_cons in Hall as [[Ha Haw] Hall].
    unfold group_text. cbn [app match_or]. rewrite bool_decide_eq_true_2 by done.
    rewrite <-app_assoc.
    by rewrite (or_body_complete alts a false r Haw (or_intror Ha) Hall).
Qed.

Lemma match_or_group alts r :
  alternatives alts →
  match_or (group_text alts ++ r) = Some (group_text alts, r).
Proof. intros Ha. apply match_or_iff. eauto. Qed.

Lemma match_or_head s o r : match_or s = Some (o, r) → ∃ t, s = "("%char :: t.
Proof.
  destruct s as [|c t]; [done|]. simpl. case_bool_decide; [|done].
  subst. eauto.
Qed.

End RegexFacts.

(* ================================================================== *)
(** ** What [search] finds *)

Section SearchFacts.
Context `{Unicode}.

Lemma take_drop_while p s : take_while p s ++ drop_while p s = s.
Proof.
  induction s as [|c t IH]; simpl; [done|].
  destruct (p c); simpl; [by rewrite IH|done].
Qed.

Lemma drop_while_head p s :
  match drop_while p s with c :: _ => p c = false | [] => True end.
Proof.
  induction s as [|c s IH]; simpl; [done|].
  destruct (p c) eqn:Hc; [done|by simpl].
Qed.

Lemma take_while_Forall p s : Forall (λ c, p c = true) (take_while p s).
Proof.
  induction s as [|c t IH]; simpl; [done|].
  destruct (p c) eqn:Hc; [by constructor|done].
Qed.

Lemma match_post_one_line r : one_line r → match_post r = r.
Proof. apply take_while_all. Qed.

Lemma match_here_Some s m :
  match_here s = Some m →
  ∃ o r, match_or s = Some (o, r) ∧
         m = {| group_pre := []; group_or := o; group_post := match_post r |}.
Proof.
  unfold match_here. destruct (match_or s) as [[o r]|]; [|done].
  intros [= <-]. eauto.
Qed.

Lemma match_at_sound s : ∀ m,
  match_at s = Some m →
  one_line (group_pre m) ∧
  ∃ r, s = group_pre m ++ group_or m ++ r
       ∧ match_or (group_or m ++ r) = Some (group_or m, r)
       ∧ group_post m = match_post r.
Proof.
  assert (Hhere : ∀ s m, match_here s = Some m →
    one_line (group_pre m) ∧
    ∃ r, s = group_pre m ++ group_or m ++ r
         ∧ match_or (group_or m ++ r) = Some (group_or m, r)
         ∧ group_post m = match_post r).
  { intros s' m (o & r & Ho & ->)%match_here_Some. simpl.
    split; [constructor|]. exists r.
    pose proof Ho as [-> _]%match_or_iff. done. }
  induction s as [|c t IH]; intros m; simpl; [by apply Hhere|].
  destruct (dot c) eqn:Hc; [|by apply Hhere].
  destruct (match_at t) as [m'|] eqn:Hm; [|by apply Hhere].
  intros [= <-]. simpl.
  destruct (IH _ eq_refl) as (Hpre & r & -> & Hor & Hpost).
  split; [by constructor|]. by exists r.
Qed.

Lemma match_at_has_group s m : match_at s = Some m → has_group s.
Proof.
  intros (_ & r & -> & Hor & _)%match_at_sound.
  apply match_or_iff in Hor as (_ & alts & Ha & Ho).
  exists (group_pre m), alts, r. by rewrite <-Ho.
Qed.

Lemma match_at_none s : ¬ has_group s → match_at s = None.
Proof.
  intros Hn. destruct (match_at s) eqn:Hm; [|done].
  by apply match_at_has_group in Hm.
Qed.

(** A group that [match_at] can reach is found, ... *)
Lemma match_at_complete pre o r :
  one_line pre →
  match_or (o ++ r) = Some (o, r) →
  is_Some (match_at (pre ++ o ++ r)).
Proof.
  intros Hpre Hor. induction Hpre as [|c pre Hc _ IH]; simpl.
  - destruct (match_or_head _ _ _ Hor) as [t Ht]. rewrite Ht. simpl.
    destruct (match_at t); [done|].
    rewrite <-Ht. unfold match_here. by rewrite Hor.
  - rewrite Hc. by destruct IH as [m ->].
Qed.

(** ... and it is the one found when no group starts after it. *)
Lemma match_at_last pre o r :
  one_line pre →
  match_or (o ++ r) = Some (o, r) →
  match_at (tail (o ++ r)) = None →
  match_at (pre ++ o ++ r)
  = Some {| group_pre := pre; group_or := o; group_post := match_post r |}.
Proof.
  intros Hpre Hor Hnone. induction Hpre as [|c pre Hc _ IH]; simpl.
  - destruct (match_or_head _ _ _ Hor) as [t Ht].
    rewrite Ht in Hnone |- *. simpl in *. rewrite Hnone.
    rewrite <-Ht. unfold match_here. by rewrite Hor.
  - by rewrite Hc, IH.
Qed.

Lemma rgx_search_unfold s :
  rgx_search s =
  match match_at s with
  | Some m => Some m
  | None => match s with [] => None | _ :: t => rgx_search t end
  end.
Proof. by destruct s. Qed.

Lemma rgx_search_sound s : ∀ m,
  rgx_search s = Some m →
  ∃ before after alts,
    alternatives alts ∧ group_or m = group_text alts
    ∧ s = before ++ group_pre m ++ group_or m ++ group_post m ++ after
    ∧ one_line (group_pre m) ∧ one_line (group_post m).
Proof.
  induction s as [|c t IH]; intros m; rewrite rgx_search_unfold.
  - done.
  - destruct (match_at (c :: t)) as [m'|] eqn:Hm.
    + intros [= <-].
      destruct (match_at_sound _ _ Hm) as (Hpre & r & Hs & Hor & Hpost).
      apply match_or_iff in Hor as (_ & alts & Ha & Ho).
      exists [], (drop_while dot r), alts. simpl.
      do 2 (split; [done|]). split; [|split; [done|]].
      * by rewrite Hs, Hpost; unfold match_post; rewrite take_drop_while.
      * rewrite Hpost. apply take_while_Forall.
    + intros (before & after & alts & Ha & Ho & -> & Hpre & Hpost)%IH.
      by exists (c :: before), after, alts.
Qed.

Lemma rgx_search_complete s : has_group s → is_Some (rgx_search s).
Proof.
  intros (pre & alts & post & Ha & ->).
  induction pre as [|c pre IH]; rewrite rgx_search_unfold.
  - destruct (match_at_complete [] (group_text alts) post) as [m Hm];
      [constructor|by apply match_or_group|].
    simpl in Hm. simpl. by rewrite Hm.
  - destruct (match_at _); [done|]. apply IH.
Qed.

Lemma rgx_search_Some s m : rgx_search s = Some m → has_group s.
Proof.
  intros (b & a & alts & Ha & Ho & -> & _)%rgx_search_sound.
  exists (b ++ group_pre m), alts, (group_post m ++ a).
  by rewrite Ho, <-!app_assoc.
Qed.

(** [search] fails exactly on the rules without a group. *)
Lemma rgx_search_None s : rgx_search s = None ↔ ¬ has_group s.
Proof.
  split.
  - intros Hs Hg. apply rgx_search_complete in Hg as [m Hm]. congruence.
  - intros Hn. destruct (rgx_search s) as [m|] eqn:Hm; [|done].
    destruct Hn. by eapply rgx_search_Some.
Qed.

Global Instance has_group_dec s : Decision (has_group s).
Proof.
  destruct (rgx_search s) as [m|] eqn:Hm.
  - left. exact (rgx_search_Some s m Hm).
  - right. exact (proj1 (rgx_search_None s) Hm).
Defined.

Lemma has_group_skip x post :
  "("%char ∉ x → has_group (x ++ post) → has_group post.
Proof.
  induction x as [|c x IH]; [done|].
  intros [Hc Hx]%not_elem_of_cons (pre & alts & post' & Ha & Heq).
  apply IH; [done|]. destruct pre as [|c' pre].
  - by injection Heq as -> _.
  - injection Heq as -> Heq. by exists pre, alts, post'.
Qed.

Lemma join_no_open alts : Forall word alts → "("%char ∉ join "|" alts.
Proof.
  induction 1 as [|a alts Ha _ IH]; [by apply not_elem_of_nil|].
  destruct alts as [|b alts].
  - rewrite join_one. by apply word_no_open.
  - rewrite join_cons, !elem_of_app.
    intros [?|[?%list_elem_of_singleton|?]]; [|done..].
    by eapply word_no_open.
Qed.

(** On a rule of one line, [search] finds the last group. *)
Lemma rgx_search_last pre alts post :
  one_line pre → one_line post → alternatives alts → ¬ has_group post →
  rgx_search (pre ++ group_text alts ++ post)
  = Some {| group_pre := pre; group_or := group_text alts;
            group_post := post |}.
Proof.
  intros Hpre Hpost Ha Hn. rewrite rgx_search_unfold.
  rewrite match_at_last; [by rewrite match_post_one_line|done|..].
  - by apply match_or_group.
  - apply match_at_none.
    replace (tail (group_text alts ++ post))
      with ((join "|" alts ++ ")") ++ post)
      by (unfold group_text; simpl; by rewrite <-app_assoc).
    intros Hg. apply Hn.
    apply has_group_skip in Hg; [done|].
    rewrite elem_of_app. intros [Hj|?%list_elem_of_singleton]; [|done].
    by apply (join_no_open alts); [apply Ha|].
Qed.

End SearchFacts.

(* ================================================================== *)
(** ** The matcher agrees with the regular expression *)

Section PatternFacts.
Context `{Unicode}.

Lemma lang_star_chr p s :
  lang (Star (Chr p)) s ↔ Forall (λ c, p c = true) s.
Proof.
  split.
  - remember (Star (Chr p)) as r eqn:Hr. intros Hl.
    induction Hl as [| | |r' s1 s2 H1 _ H2 IH|]; try done.
    injection Hr as ->. inversion H1; subst. constructor; auto.
  - induction 1 as [|c s Hc _ IH]; [constructor|].
    apply (lang_star_cons _ [c] s); [by constructor|done].
Qed.

Lemma lang_plus_chr p s :
  lang (Plus (Chr p)) s ↔ s ≠ [] ∧ Forall (λ c, p c = true) s.
Proof.
  split.
  - inversion 1 as [| | | |r s1 s2 H1 H2]; subst. inversion H1; subst.
    split; [done|]. constructor; [done|]. by apply lang_star_chr.
  - intros [Hne Hall]. destruct Hall as [|c s Hc Hs]; [done|].
    apply (lang_plus _ [c] s); [by constructor|by apply lang_star_chr].
Qed.

Lemma lang_word w : lang (Plus (Chr is_word)) w ↔ word w.
Proof. apply lang_plus_chr. Qed.

Lemma lang_lit c s : lang (Lit c) s ↔ s = [c].
Proof.
  split.
  - inversion 1 as [p c' Hc| | | |]; subst.
    by apply bool_decide_eq_true in Hc as ->.
  - intros ->. constructor. by apply bool_decide_eq_true.
Qed.

(** The separated alternatives before the last one. *)
Lemma lang_separated s :
  lang (Star (Cat (Plus (Chr is_word)) (Lit "|"))) s ↔
  ∃ ws, Forall word ws ∧ s = ws ≫= (λ w, w ++ "|").
Proof.
  split.
  - remember (Star _) as r eqn:Hr. intros Hl.
    induction Hl as [| | |r' s1 s2 H1 _ H2 IH|]; try done.
    + by exists [].
    + injection Hr as ->. destruct (IH eq_refl) as (ws & Hws & ->).
      inversion H1 as [|r1 r2 w b Hw Hb| | |]; subst.
      apply lang_word in Hw. apply lang_lit in Hb as ->.
      exists (w :: ws). split; [by constructor|done].
  - intros (ws & Hws & ->). induction Hws as [|w ws Hw _ IH]; [constructor|].
    csimpl. apply lang_star_cons; [|done].
    apply lang_cat; [by apply lang_word|by apply lang_lit].
Qed.

Lemma join_separated ws w :
  join "|" (ws ++ [w]) = (ws ≫= (λ x, x ++ "|")) ++ w.
Proof.
  induction ws as [|x ws IH]; [done|]. csimpl.
  assert (∃ y l, ws ++ [w] = y :: l) as (y & l & Hyl)
    by (destruct ws; simpl; eauto).
  rewrite Hyl, join_cons, <-Hyl, IH. by rewrite <-!app_assoc.
Qed.

(** The group [or] of the pattern matches the texts of groups. *)
Lemma lang_rgx_or o :
  lang rgx_or o ↔ ∃ alts, alternatives alts ∧ o = group_text alts.
Proof.
  unfold rgx_or. split.
  - inversion 1 as [|? ? s1 s2 Hopen Hrest| | |]; subst.
    apply lang_lit in Hopen as ->.
    inversion Hrest as [|? ? s3 s4 Hsep Hlast| | |]; subst.
    apply lang_separated in Hsep as (ws & Hws & ->).
    inversion Hlast as [|? ? w s5 Hw Hclose| | |]; subst.
    apply lang_word in Hw. apply lang_lit in Hclose as ->.
    exists (ws ++ [w]). split.
    + split; [by destruct ws|]. apply Forall_app. by split; [|constructor].
    + unfold group_text. by rewrite join_separated, <-!app_assoc.
  - intros (alts & [Hne Hall] & ->).
    destruct alts as [|a alts _] using rev_ind; [done|].
    apply Forall_app in Hall as [Hws [Hw _]%Forall_cons].
    unfold group_text. rewrite join_separated, <-!app_assoc.
    apply lang_cat; [by apply lang_lit|].
    apply lang_cat; [apply lang_separated; eauto|].
    apply lang_cat; [by apply lang_word|by apply lang_lit].
Qed.

Lemma lang_rgx t :
  lang rgx t ↔
  ∃ pre alts post, one_line pre ∧ alternatives alts ∧ one_line post
                   ∧ t = pre ++ group_text alts ++ post.
Proof.
  unfold rgx, rgx_pre, rgx_post. split.
  - inversion 1 as [|? ? pre s2 Hpre Hrest| | |]; subst.
    inversion Hrest as [|? ? o post Hor Hpost| | |]; subst.
    apply lang_star_chr in Hpre, Hpost.
    apply lang_rgx_or in Hor as (alts & Ha & ->).
    by exists pre, alts, post.
  - intros (pre & alts & post & Hpre & Ha & Hpost & ->).
    apply lang_cat; [by apply lang_star_chr|].
    apply lang_cat; [apply lang_rgx_or; eauto|by apply lang_star_chr].
Qed.

(** What [search] returns matches the pattern, group by group, and is a
    part of the rule. *)
Lemma rgx_search_lang s m :
  rgx_search s = Some m →
  lang rgx_pre (group_pre m) ∧ lang rgx_or (group_or m)
  ∧ lang rgx_post (group_post m)
  ∧ ∃ before after,
      s = before ++ (group_pre m ++ group_or m ++ group_post m) ++ after.
Proof.
  intros (before & after & alts & Ha & Ho & -> & Hpre & Hpost)
    %rgx_search_sound.
  split; [by apply lang_star_chr|]. split; [apply lang_rgx_or; eauto|].
  split; [by apply lang_star_chr|].
  exists before, after. by rewrite <-!app_assoc.
Qed.

(** [search] succeeds exactly when a part of the rule matches the
    pattern. *)
Lemma rgx_search_is_Some s :
  is_Some (rgx_search s)
  ↔ ∃ before t after, s = before ++ t ++ after ∧ lang rgx t.
Proof.
  split.
  - intros [m Hm].
    apply rgx_search_lang in Hm as (Hpre & Hor & Hpost & b & a & ->).
    exists b, (group_pre m ++ group_or m ++ group_post m), a.
    split; [done|]. apply lang_cat; [done|]. by apply lang_cat.
  - intros (before & t & after & -> & Hl).
    apply lang_rgx in Hl as (pre & alts & post & _ & Ha & _ & ->).
    apply rgx_search_complete.
    exists (before ++ pre), alts, (post ++ after). split; [done|].
    by rewrite <-!app_assoc.
Qed.

End PatternFacts.

(* ================================================================== *)
(** ** The match that [search] returns is the one of a backtracking
       matcher: leftmost start, longest [pre], longest [post] *)

Section Priority.
Context `{Unicode}.

Lemma starts_with_match_at t pre o :
  starts_with_match t pre o → is_Some (match_at t).
Proof.
  intros (r & -> & Hpre%lang_star_chr & (alts & Ha & ->)%lang_rgx_or).
  apply match_at_complete; [done|by apply match_or_group].
Qed.

Lemma match_at_longest_pre t : ∀ m pre o,
  match_at t = Some m → starts_with_match t pre o →
  length pre ≤ length (group_pre m).
Proof.
  induction t as [|c t IH]; intros m pre o Hm Hs.
  - destruct Hs as (r & Ht & _). destruct pre; [simpl; lia|done].
  - destruct pre as [|c' pre]; [simpl; lia|].
    destruct Hs as (r & [= <- Ht] & Hpre%lang_star_chr & Ho).
    apply Forall_cons in Hpre as [Hc Hpre].
    assert (starts_with_match t pre o) as Hs
      by (exists r; split; [done|split; [by apply lang_star_chr|done]]).
    simpl in Hm. rewrite Hc in Hm.
    destruct (match_at t) as [m'|] eqn:Hm'.
    + injection Hm as <-. simpl. specialize (IH m' pre o eq_refl Hs). lia.
    + apply starts_with_match_at in Hs as [? ?]. congruence.
Qed.

Lemma rgx_search_leftmost s : ∀ m,
  rgx_search s = Some m →
  ∃ before after,
    s = before ++ (group_pre m ++ group_or m ++ group_post m) ++ after
    ∧ match_at (drop (length before) s) = Some m
    ∧ (∀ i, i < length before → match_at (drop i s) = None)
    ∧ match after with c :: _ => dot c = false | [] => True end.
Proof.
  induction s as [|c t IH]; intros m; rewrite rgx_search_unfold.
  - done.
  - destruct (match_at (c :: t)) as [m'|] eqn:Hm.
    + intros [= <-].
      destruct (match_at_sound _ _ Hm) as (_ & r & Hs & _ & Hpost).
      exists [], (drop_while dot r). split; [|split; [done|split]].
      * rewrite Hs, Hpost, <-!app_assoc. unfold match_post.
        by rewrite take_drop_while.
      * simpl. lia.
      * pose proof (drop_while_head dot r) as Hh.
        by destruct (drop_while dot r).
    + intros (before & after & -> & Hat & Hearlier & Hafter)%IH.
      exists (c :: before), after. split; [done|]. split; [done|].
      split; [|done]. intros [|i] Hi; [done|]. apply Hearlier. simpl in Hi. lia.
Qed.

End Priority.

(* ================================================================== *)
(** ** One pass of [parse_or], and the end of the recursion *)

Section ParseOrFacts.
Context `{Unicode}.

Lemma expand_rule_acc acc b rule :
  expand_rule (acc, b) rule = (acc ++ expansions rule, b || matches rule).
Proof.
  unfold expansions, matches, expand_rule.
  destruct (rgx_search rule); simpl; [by rewrite orb_true_r|].
  by rewrite orb_false_r.
Qed.

Lemma foldl_expand_rule rules : ∀ acc b,
  foldl expand_rule (acc, b) rules
  = (acc ++ (rules ≫= expansions), b || existsb matches rules).
Proof.
  induction rules as [|r rules IH]; intros acc b.
  - simpl. by rewrite app_nil_r, orb_false_r.
  - change (foldl expand_rule (acc, b) (r :: rules))
      with (foldl expand_rule (expand_rule (acc, b) r) rules).
    rewrite expand_rule_acc, IH. csimpl. by rewrite <-app_assoc, orb_assoc.
Qed.

Lemma expand_pass_eq rules :
  expand_pass rules = ((rules ≫= expansions), existsb matches rules).
Proof. unfold expand_pass. by rewrite foldl_expand_rule. Qed.

Lemma expand_pass_one rule :
  expand_pass [rule] = (expansions rule, matches rule).
Proof. rewrite expand_pass_eq. csimpl. by rewrite app_nil_r, orb_false_r. Qed.

Lemma alternatives_no_bar alts :
  alternatives alts → Forall (λ x, "|"%char ∉ x) alts.
Proof. intros [_ Ha]. eapply Forall_impl; [exact Ha|]. apply word_no_bar. Qed.

(** The alternatives are recovered from the text of the group. *)
Lemma split_group_text alts :
  alternatives alts →
  split "|" (slice (group_text alts) (Some 1%Z) (Some (-1)%Z)) = alts.
Proof.
  intros Ha. unfold group_text.
  change ("(" ++ join "|" alts ++ ")")
    with ("("%char :: join "|" alts ++ [")"%char]).
  rewrite slice_inner. apply (split_join "|"%char); [apply Ha|].
  by apply alternatives_no_bar.
Qed.

Lemma expansions_Some rule m alts :
  rgx_search rule = Some m → alternatives alts → group_or m = group_text alts →
  expansions rule = replace_group (group_pre m) alts (group_post m)
  ∧ matches rule = true.
Proof.
  intros Hm Ha Ho. unfold expansions, matches, expand_rule.
  rewrite Hm. simpl. by rewrite Ho, split_group_text.
Qed.

Lemma expansions_None rule :
  ¬ has_group rule → expansions rule = [rule] ∧ matches rule = false.
Proof.
  intros Hn%rgx_search_None. unfold expansions, matches, expand_rule.
  by rewrite Hn.
Qed.

Lemma matches_has_group rule : matches rule = true ↔ has_group rule.
Proof.
  unfold matches, expand_rule.
  destruct (rgx_search rule) as [m|] eqn:Hm; simpl.
  - split; [|done]. intros _. by eapply rgx_search_Some.
  - split; [done|]. by intros Hg%rgx_search_None.
Qed.

Lemma count_open_app s t : count_open (s ++ t) = count_open s + count_open t.
Proof. unfold count_open. by rewrite filter_app, length_app. Qed.

Lemma count_open_none s : "("%char ∉ s → count_open s = 0.
Proof.
  unfold count_open. induction s as [|c s IH]; [done|].
  intros [Hc Hs]%not_elem_of_cons.
  rewrite filter_cons_False by done. by apply IH.
Qed.

Lemma count_open_group alts : 0 < count_open (group_text alts).
Proof.
  unfold group_text, count_open. cbn [app].
  rewrite filter_cons_True by done. simpl. lia.
Qed.

(** Every rule made from a rule that matches has fewer opening
    parentheses. *)
Lemma expansions_count rule rule' :
  matches rule = true → rule' ∈ expansions rule →
  count_open rule' < count_open rule.
Proof.
  unfold matches, expand_rule.
  destruct (rgx_search rule) as [m|] eqn:Hm; [intros _|done].
  destruct (rgx_search_sound _ _ Hm)
    as (before & after & alts & Ha & Ho & Hrule & _).
  destruct (expansions_Some _ _ _ Hm Ha Ho) as [-> _].
  intros (alt & -> & Halt)%list_elem_of_fmap.
  rewrite Hrule, Ho, !count_open_app.
  rewrite (count_open_none alt).
  - pose proof (count_open_group alts). lia.
  - apply word_no_open. destruct Ha as [_ Ha].
    by eapply (proj1 (Forall_forall _ _)) in Ha.
Qed.

Lemma depth_matches rule :
  depth rule = if matches rule then count_open rule else 0.
Proof. unfold depth, matches, expand_rule. by destruct (rgx_search rule). Qed.

Lemma depth_le rule : depth rule ≤ count_open rule.
Proof. rewrite depth_matches. destruct (matches rule); lia. Qed.

Lemma depth_pos rule : matches rule = true → 0 < depth rule.
Proof.
  intros Hm. rewrite depth_matches, Hm.
  apply matches_has_group in Hm as (pre & alts & post & _ & ->).
  rewrite !count_open_app. pose proof (count_open_group alts). lia.
Qed.

Lemma max_list_lt (l : list nat) n :
  0 < n → Forall (λ k, k < n) l → max_list l < n.
Proof. intros Hn. induction 1; simpl; lia. Qed.

Lemma max_list_le_fmap {A} (f g : A → nat) l :
  (∀ x, f x ≤ g x) → max_list (f <$> l) ≤ max_list (g <$> l).
Proof.
  intros Hfg. induction l as [|x l IH]; simpl; [done|].
  specialize (Hfg x). unfold fmap in IH. lia.
Qed.

(** A pass that expands some rule lowers the greatest depth. *)
Lemma expand_pass_depth rules :
  existsb matches rules = true →
  max_list (depth <$> (rules ≫= expansions))
  < max_list (depth <$> rules).
Proof.
  intros (r0 & Hr0 & Hm0)%existsb_exists.
  apply list_elem_of_In in Hr0.
  assert (Hpos : 0 < max_list (depth <$> rules)).
  { pose proof (depth_pos _ Hm0).
    pose proof (max_list_elem_of_le (depth r0) (depth <$> rules)) as Hle.
    specialize (Hle (list_elem_of_fmap_2 _ _ _ Hr0)). lia. }
  apply max_list_lt; [done|].
  apply Forall_fmap, Forall_forall. intros r' Hr'. simpl.
  apply list_elem_of_bind in Hr' as (r & Hr' & Hr).
  pose proof (max_list_elem_of_le (depth r) (depth <$> rules)
                (list_elem_of_fmap_2 _ _ _ Hr)) as Hle.
  destruct (matches r) eqn:Hm.
  - pose proof (expansions_count _ _ Hm Hr').
    pose proof (depth_le r'). rewrite (depth_matches r), Hm in Hle. lia.
  - assert (¬ has_group r) as Hn by (rewrite <-matches_has_group; congruence).
    apply expansions_None in Hn as [Hn _]. rewrite Hn in Hr'.
    apply list_elem_of_singleton in Hr' as ->.
    rewrite depth_matches, Hm. done.
Qed.

(** The recursion ends: enough fuel gives a result. *)
Lemma parse_or_fuel_enough fuel : ∀ rules,
  max_list (depth <$> rules) < fuel →
  ∃ out, parse_or_fuel fuel rules = Some out.
Proof.
  induction fuel as [|fuel IH]; intros rules Hlt; [lia|].
  simpl. rewrite expand_pass_eq.
  destruct (existsb matches rules) eqn:Hm; simpl; [|eauto].
  apply IH. pose proof (expand_pass_depth _ Hm). lia.
Qed.

(** More fuel does not change the result. *)
Lemma parse_or_fuel_mono fuel : ∀ fuel' rules out,
  parse_or_fuel fuel rules = Some out → fuel ≤ fuel' →
  parse_or_fuel fuel' rules = Some out.
Proof.
  induction fuel as [|fuel IH]; intros fuel' rules out; [done|].
  destruct fuel' as [|fuel']; [lia|]. simpl.
  destruct (expand_pass rules) as [new_rules added].
  destruct added; simpl; [|done]. intros Hf Hle. apply IH; [done|lia].
Qed.

Lemma parse_or_depth_enough rules :
  max_list (depth <$> rules) < parse_or_depth rules.
Proof.
  unfold parse_or_depth.
  pose proof (max_list_le_fmap depth count_open rules depth_le). lia.
Qed.

Lemma parse_or_fuel_Some fuel rules out :
  parse_or_fuel fuel rules = Some out → parse_or rules = out.
Proof.
  intros Hf. unfold parse_or.
  destruct (parse_or_fuel_enough _ rules (parse_or_depth_enough rules))
    as [out' Hout'].
  rewrite Hout'. simpl.
  apply (parse_or_fuel_mono _ (fuel `max` parse_or_depth rules)) in Hf; [|lia].
  apply (parse_or_fuel_mono _ (fuel `max` parse_or_depth rules)) in Hout';
    [|lia].
  congruence.
Qed.

(** [parse_or] satisfies the equation that the Python function is written
    as, so the bound on the recursion cuts nothing off. *)
Lemma parse_or_unfold rules :
  parse_or rules =
  let '(new_rules, added_new_rule) := expand_pass rules in
  if negb added_new_rule then new_rules else parse_or new_rules.
Proof.
  destruct (parse_or_fuel_enough _ rules (parse_or_depth_enough rules))
    as [out Hout].
  rewrite (parse_or_fuel_Some _ _ _ Hout).
  unfold parse_or_depth in Hout. simpl in Hout.
  destruct (expand_pass rules) as [new_rules added].
  destruct added; simpl in *; [|congruence].
  symmetry. by eapply parse_or_fuel_Some.
Qed.

Lemma parse_or_no_group rules :
  Forall (λ r, ¬ has_group r) rules → parse_or rules = rules.
Proof.
  intros Hn. rewrite parse_or_unfold, expand_pass_eq.
  assert (existsb matches rules = false ∧ (rules ≫= expansions) = rules)
    as [-> ->]; [|done].
  induction Hn as [|r rules Hr _ [IH1 IH2]]; [done|]. csimpl.
  destruct (expansions_None r Hr) as [-> ->]. simpl. by rewrite IH1, IH2.
Qed.

End ParseOrFacts.

(* ================================================================== *)
(** ** Properties of [parse_or] *)

Section ParseOrProperties.
Context `{Unicode}.

(** What every pass preserves holds of the result. *)
Lemma parse_or_invariant (P : list str → Prop) rules :
  (∀ rules, P rules → P (rules ≫= expansions)) →
  P rules → P (parse_or rules).
Proof.
  intros Hstep.
  assert (∀ fuel rules out,
            parse_or_fuel fuel rules = Some out → P rules → P out) as Hfuel.
  { induction fuel as [|fuel IH]; intros rules' out; [done|].
    simpl. rewrite expand_pass_eq.
    destruct (existsb matches rules'); simpl.
    - intros Hf HP. eapply IH; eauto.
    - intros [= <-] HP. by apply Hstep. }
  destruct (parse_or_fuel_enough _ rules (parse_or_depth_enough rules))
    as [out Hout].
  rewrite (parse_or_fuel_Some _ _ _ Hout). by eapply Hfuel.
Qed.

Lemma group_text_one_line alts : alternatives alts → one_line (group_text alts).
Proof.
  intros [_ Ha]. unfold group_text, one_line.
  apply Forall_app. split; [by repeat constructor|].
  apply Forall_app. split; [|by repeat constructor].
  induction Ha as [|a alts Hw _ IH]; [constructor|].
  destruct alts as [|b alts].
  - rewrite join_one. by apply word_one_line.
  - rewrite join_cons. apply Forall_app. split; [by apply word_one_line|].
    apply Forall_app. split; [by repeat constructor|done].
Qed.

Lemma expansions_last pre alts post :
  one_line pre → one_line post → alternatives alts → ¬ has_group post →
  expansions (pre ++ group_text alts ++ post) = replace_group pre alts post
  ∧ matches (pre ++ group_text alts ++ post) = true.
Proof.
  intros Hpre Hpost Ha Hn.
  pose proof (rgx_search_last pre alts post Hpre Hpost Ha Hn) as Hs.
  exact (expansions_Some _ _ alts Hs Ha eq_refl).
Qed.

(** C5: the two groups of the rule are expanded into the four rules that
    the specification lists, in its order. *)
Theorem parse_or_cpp_hpp :
  parse_or [".*(cpp|hpp).(c|h)"]
  = [".*cpp.c"; ".*hpp.c"; ".*cpp.h"; ".*hpp.h"].
Proof. vm_compute. reflexivity. Qed.

(** C10: a rule whose every parenthesised text has an alternative with a
    character that is not a word character is left as it is. *)
Theorem parse_or_keeps_other_parentheses (rule : str) :
  (∀ pre body post, rule = pre ++ "(" ++ body ++ ")" ++ post →
     ∃ alt c, alt ∈ split "|" body ∧ c ∈ alt ∧ is_word c = false) →
  parse_or [rule] = [rule].
Proof.
  intros Hall. apply parse_or_no_group. constructor; [|done].
  intros (pre & alts & post & Ha & ->).
  destruct (Hall pre (join "|" alts) post) as (alt & c & Halt & Hc & Hw).
  { unfold group_text. by rewrite <-!app_assoc. }
  rewrite (split_join "|"%char) in Halt;
    [|apply Ha|by apply alternatives_no_bar].
  destruct Ha as [_ Ha].
  eapply (proj1 (Forall_forall _ _)) in Ha; [|exact Halt].
  apply (word_chars _ _ Ha) in Hc. congruence.
Qed.

(** C4, as the code has it: on a rule of one line, a pass replaces the last
    group and keeps the text before it, earlier groups included; the pass
    after it replaces the group before, so groups are resolved from right
    to left. *)
Theorem expand_pass_last_group_first
    (p : str) (alts1 : list str) (m : str) (alts2 : list str) (q : str) :
  alternatives alts1 → alternatives alts2 →
  one_line (p ++ m ++ q) →
  ¬ has_group q →
  Forall (λ alt, ¬ has_group (m ++ alt ++ q)) alts2 →
  let earlier := p ++ group_text alts1 ++ m in
  expand_pass [earlier ++ group_text alts2 ++ q]
  = (replace_group earlier alts2 q, true)
  ∧ expand_pass (replace_group earlier alts2 q)
    = (alts2 ≫= (λ alt, replace_group p alts1 (m ++ alt ++ q)), true).
Proof.
  intros Ha1 Ha2 Hline Hq Hm earlier.
  apply Forall_app in Hline as [Hp Hline].
  apply Forall_app in Hline as [Hml Hql].
  assert (one_line earlier) as Hearlier.
  { apply Forall_app. split; [done|]. apply Forall_app. split; [|done].
    by apply group_text_one_line. }
  destruct (expansions_last earlier alts2 q) as [E1 E2]; [done..|].
  split.
  - by rewrite expand_pass_one, E1, E2.
  - rewrite expand_pass_eq. f_equal.
    + unfold replace_group at 1. rewrite list_fmap_bind.
      apply Forall_bind_ext, Forall_forall. intros alt Halt. simpl.
      unfold earlier. rewrite <-!app_assoc.
      apply expansions_last; [done|..|done|].
      * apply Forall_app. split; [done|]. apply Forall_app. split; [|done].
        apply word_one_line. destruct Ha2 as [_ Ha2].
        by eapply (proj1 (Forall_forall _ _)) in Ha2.
      * by eapply (proj1 (Forall_forall _ _)) in Hm.
    + destruct alts2 as [|alt alts2]; [by destruct Ha2|].
      apply Forall_cons in Hm as [Hm _].
      cbn [replace_group fmap list_fmap existsb].
      unfold earlier. rewrite <-!app_assoc.
      destruct (expansions_last p alts1 (m ++ alt ++ q)) as [_ ->];
        [done| |done..].
      apply Forall_app. split; [done|]. apply Forall_app. split; [|done].
      apply word_one_line. destruct Ha2 as [_ Ha2].
      by apply Forall_cons in Ha2 as [? _].
Qed.

End ParseOrProperties.

(* ================================================================== *)
(** ** Properties of [proc] and [exception_ignore] *)

Lemma for_each_Ok {A S} (P : A → Prop) (body : S → A → result S) l :
  (∀ s x, P x → ∃ s', body s x = Ok s') →
  Forall P l → ∀ s, ∃ out, for_each body l s = Ok out.
Proof.
  intros Hbody. induction 1 as [|x l Hx _ IH]; intros s; simpl; [eauto|].
  destruct (Hbody s x Hx) as [s' ->]. simpl. apply IH.
Qed.

Lemma for_each_Raise {A S} (body : S → A → result S) l e :
  (∀ s, body s e = Raise IndexError) →
  (∀ s x, ∃ r, body s x = r ∧ (r = Raise IndexError ∨ ∃ s', r = Ok s')) →
  e ∈ l → ∀ s, for_each body l s = Raise IndexError.
Proof.
  intros He Hall. induction 1 as [x l|x y l _ IH]; intros s; simpl.
  - by rewrite He.
  - destruct (Hall s y) as (r & Hr & [->|[s' ->]]); rewrite Hr; simpl;
      [done|by apply IH].
Qed.

Lemma getitem_last_Ok s :
  s ≠ [] → ∃ c, getitem s (-1) = Ok c ∧ last s = Some c.
Proof.
  intros Hs. destruct s as [|c0 s] using rev_ind; [done|].
  exists c0. by rewrite getitem_last, last_snoc.
Qed.

Section ProcProperties.
Context `{Unicode}.

Lemma expansions_nonempty rule :
  rule ≠ [] → Forall (λ r, r ≠ []) (expansions rule).
Proof.
  intros Hr. destruct (matches rule) eqn:Hm.
  - unfold matches, expansions, expand_rule in *.
    destruct (rgx_search rule) as [m|] eqn:Hs; [|done].
    destruct (rgx_search_sound _ _ Hs) as (_ & _ & alts & Ha & Ho & _).
    simpl. rewrite Ho, split_group_text by done.
    apply Forall_fmap, Forall_forall. intros alt Halt. simpl.
    destruct Ha as [_ Ha].
    eapply (proj1 (Forall_forall _ _)) in Ha as [Hne _]; [|exact Halt].
    destruct (group_pre m); [|done]. by destruct alt.
  - assert (¬ has_group rule) as Hn by (rewrite <-matches_has_group; congruence).
    apply expansions_None in Hn as [-> _]. by constructor.
Qed.

Lemma parse_or_nonempty rules :
  Forall (λ r, r ≠ []) rules → Forall (λ r, r ≠ []) (parse_or rules).
Proof.
  apply (parse_or_invariant (Forall (λ r, r ≠ []))).
  intros rules' Hr. apply Forall_bind. eapply Forall_impl; [exact Hr|].
  apply expansions_nonempty.
Qed.

Lemma parse_or_empty rules : [] ∈ rules → [] ∈ parse_or rules.
Proof.
  apply (parse_or_invariant (λ l, [] ∈ l)).
  intros rules' Hr. apply list_elem_of_bind. exists []. split; [|done].
  assert (¬ has_group []) as Hn by (by intros ([|??] & ? & ? & _ & ?)).
  apply expansions_None in Hn as [-> _]. by left.
Qed.

Lemma proc_rule_Ok rules rule :
  rule ≠ [] → ∃ out, proc_rule rules rule = Ok out.
Proof.
  intros Hr. unfold proc_rule.
  destruct (getitem_last_Ok rule Hr) as (c & -> & _). cbn [bind].
  destruct rule as [|c0 rule]; [done|].
  repeat case_bool_decide; cbn [app]; rewrite getitem_first; cbn [bind];
    case_bool_decide; eauto.
Qed.

Lemma proc_rule_empty rules : proc_rule rules [] = Raise IndexError.
Proof. done. Qed.

Lemma exception_ignore_rule_Ok st rule :
  rule ≠ [] → ∃ out, exception_ignore_rule st rule = Ok out.
Proof.
  intros Hr. destruct st as [ign exc], rule as [|c rule]; [done|].
  unfold exception_ignore_rule. rewrite getitem_first. simpl. eauto.
Qed.

(** An empty rule makes both raise, wherever it stands in the list. *)
Lemma proc_empty_rule rules : "" ∈ rules → proc rules = Raise IndexError.
Proof.
  intros Hin%parse_or_empty. unfold proc.
  apply (for_each_Raise _ _ []); [done| |done].
  intros s x. eexists; split; [done|].
  destruct x as [|c x]; [by left|right].
  by apply proc_rule_Ok.
Qed.

Lemma exception_ignore_empty_rule rules :
  "" ∈ rules → exception_ignore rules = Raise IndexError.
Proof.
  intros Hin. unfold exception_ignore.
  apply (for_each_Raise _ _ []); [by intros [??]| |done].
  intros s x. eexists; split; [done|].
  destruct x as [|c x]; [left; by destruct s|right].
  by apply exception_ignore_rule_Ok.
Qed.

(** A rule that ends with a slash takes the first branch of the tail
    rewriting, whatever precedes the slash: the branch for ["/**/"] is
    never reached. *)
Lemma proc_rule_slash_tail rules rule :
  proc_rule rules (rule ++ "/")
  = (let rule := (rule ++ "/") ++ "**/*" in
     do first_char <- getitem rule 0;
     let '(rule, rules) :=
       if bool_decide (first_char = "/"%char)
       then (slice rule (Some 1%Z) None, rules)
       else let rule := "**/" ++ rule in (rule, rules ++ [rule ++ "/**/*"]) in
     Ok (if bool_decide (rule ≠ "") then rules ++ [rule] else rules)).
Proof. unfold proc_rule. rewrite getitem_last. simpl. done. Qed.

(** The rewriting of every root-relative rule that ends in ["/**/"]. *)
Lemma proc_root_dir_tail (x : str) :
  ¬ has_group ("/" ++ x ++ "/**/") →
  proc ["/" ++ x ++ "/**/"] = Ok [x ++ "/**/**/*"].
Proof.
  intros Hn. unfold proc. rewrite parse_or_no_group by (by constructor).
  cbn [for_each].
  replace ("/" ++ x ++ "/**/") with (("/" ++ x ++ "/**") ++ "/")
    by (by rewrite <-!app_assoc).
  rewrite proc_rule_slash_tail. cbn [app]. rewrite getitem_first.
  cbn [bind]. rewrite bool_decide_eq_true_2 by done.
  change 1%Z with (Z.of_nat 1). rewrite slice_from. cbn [drop].
  rewrite bool_decide_eq_true_2 by (by destruct x).
  cbn [app bind]. by rewrite <-!app_assoc.
Qed.

(** C6: on the root-relative rule that ends in a slash, two stars and a
    slash, the tail rewriting appends two stars, a slash and a star, so
    the glob has the two stars twice. *)
Theorem proc_dir_tail_doubled : proc ["/xx/**/"] = Ok ["xx/**/**/*"].
Proof. vm_compute. reflexivity. Qed.

(** C7: a rule without a group, without a leading slash and without a
    directory tail yields the glob for the directory and then the glob
    for the file. *)
Theorem proc_anywhere_rule (r : str) :
  r ≠ "" →
  ¬ has_group r →
  ¬ "/" `prefix_of` r →
  ¬ "/" `suffix_of` r → ¬ "/**" `suffix_of` r → ¬ "/**/" `suffix_of` r →
  proc [r] = Ok ["**/" ++ r ++ "/**/*"; "**/" ++ r].
Proof.
  intros Hne Hgroup Hhead Ht1 Ht3 Ht4. unfold proc.
  rewrite parse_or_no_group by (by constructor). simpl.
  unfold proc_rule.
  destruct (getitem_last_Ok r Hne) as (c & -> & Hlast). simpl.
  rewrite bool_decide_eq_false_2.
  2:{ intros ->. apply Ht1. apply last_Some in Hlast as [r' ->].
      by apply suffix_app_r. }
  rewrite bool_decide_eq_false_2
    by (intros Hs; by apply (slice_tail_eq r "/**") in Hs).
  rewrite bool_decide_eq_false_2
    by (intros Hs; by apply (slice_tail_eq r "/**/") in Hs).
  destruct r as [|c0 r]; [done|]. rewrite getitem_first. simpl.
  rewrite bool_decide_eq_false_2.
  2:{ intros ->. apply Hhead. by exists r. }
  done.
Qed.

End ProcProperties.

(* ================================================================== *)
(** ** Properties of [load_ignore_rules] *)

Section LoadProperties.
Context `{Unicode}.

Lemma drop_while_app_stop p x c y :
  p c = false → drop_while p (x ++ c :: y) = drop_while p x ++ c :: y.
Proof.
  intros Hc. induction x as [|d x IH]; simpl; [by rewrite Hc|].
  by destruct (p d).
Qed.

(** A trimmed line does not start with a blank. *)
Lemma strip_head s :
  match strip s with c :: _ => is_space c = false | [] => True end.
Proof.
  unfold strip. pose proof (drop_while_head is_space s) as Hh.
  destruct (drop_while is_space s) as [|c t]; [done|].
  rewrite reverse_cons, (drop_while_app_stop _ _ c []) by done.
  by rewrite reverse_app.
Qed.

Lemma comment_search_strip s :
  comment_search (strip s) = bool_decide ("#" `prefix_of` strip s).
Proof.
  unfold comment_search. pose proof (strip_head s) as Hh.
  destruct (strip s) as [|c t]; cbn [drop_while].
  - symmetry. apply bool_decide_eq_false_2. by intros [? ?].
  - rewrite Hh. apply bool_decide_ext. split.
    + intros ->. by exists t.
    + by intros [? [= -> _]].
Qed.

Lemma two_slashes line :
  bool_decide (2 ≤ length line)
  && bool_decide (slice line None (Some 2%Z) = "//")
  = bool_decide ("//" `prefix_of` line).
Proof.
  change 2%Z with (Z.of_nat 2). rewrite (slice_to line 2).
  destruct line as [|a [|b line]]; cbn [length take].
  - symmetry. apply bool_decide_eq_false_2. by intros [? ?].
  - symmetry. rewrite andb_false_l. apply bool_decide_eq_false_2.
    by intros [? ?].
  - rewrite bool_decide_eq_true_2 by lia. apply bool_decide_ext. split.
    + intros [= -> ->]. by exists line.
    + by intros [? [= -> -> _]].
Qed.

Lemma load_line_kept acc line :
  load_line acc line = acc ++ filter kept [strip line].
Proof.
  unfold load_line. rewrite two_slashes, comment_search_strip.
  unfold kept. repeat case_bool_decide; simpl.
  all: try (rewrite filter_cons_False, filter_nil, ?app_nil_r; [done|]; tauto).
  rewrite filter_cons_True; [done|tauto].
Qed.

Lemma foldl_load_line lines : ∀ acc,
  foldl load_line acc lines = acc ++ kept_lines lines.
Proof.
  unfold kept_lines.
  induction lines as [|l lines IH]; intros acc; simpl.
  - by rewrite app_nil_r.
  - rewrite IH, load_line_kept, <-app_assoc. f_equal.
    by rewrite <-filter_app.
Qed.

Lemma load_ignore_rules_rewrap (W : World) (file_path : str) :
  load_ignore_rules W file_path
  = match open_expanded W file_path with
    | Ok lines => Ok (kept_lines lines)
    | Raise e =>
        Raise (if is_FileNotFoundError e then IgnoreFileError e else e)
    end.
Proof.
  unfold load_ignore_rules.
  destruct (open_expanded W file_path) as [lines|e]; cbn [bind rewrap].
  - by rewrite (foldl_load_line lines []).
  - by destruct (is_FileNotFoundError e).
Qed.

(** C8, as the code has it: [IgnoreFileError] is raised exactly when the
    opening of the expanded path fails with FileNotFoundError, which it
    wraps; every other exception of the expansion, of [open] and of the
    reading is raised as it is; a file that is opened and read yields its
    kept lines.  [open] is a function of the interpreter: it raises no
    exception of this module. *)
Theorem load_ignore_rules_outcome (W : World) (file_path : str) :
  (∀ e, open_expanded W file_path ≠ Raise (IgnoreFileError e)) →
  (open_expanded W file_path = Raise FileNotFoundError ↔
   load_ignore_rules W file_path = Raise (IgnoreFileError FileNotFoundError))
  ∧ (∀ e, load_ignore_rules W file_path = Raise (IgnoreFileError e) →
          open_expanded W file_path = Raise FileNotFoundError
          ∧ e = FileNotFoundError)
  ∧ (∀ e, open_expanded W file_path = Raise e → e ≠ FileNotFoundError →
          load_ignore_rules W file_path = Raise e)
  ∧ (∀ lines, open_expanded W file_path = Ok lines →
              load_ignore_rules W file_path = Ok (kept_lines lines)).
Proof.
  intros Hbuiltin. rewrite load_ignore_rules_rewrap.
  destruct (open_expanded W file_path) as [lines|e0] eqn:Hopen.
  - split; [done|]. split; [done|]. split; [done|]. by intros ? [= ->].
  - assert (∀ e, (if is_FileNotFoundError e0 then IgnoreFileError e0 else e0)
                 = IgnoreFileError e → e0 = FileNotFoundError ∧ e = e0)
      as Hwrap.
    { intros e. destruct e0 as [| | | | | | | | |c|c]; simpl; intros Heq;
        try done.
      - by injection Heq as <-.
      - by destruct (Hbuiltin c). }
    split; [|split; [|split; [|done]]].
    + split; [by intros [= ->]|].
      intros [= Heq]. by destruct (Hwrap _ Heq) as [-> _].
    + intros e [= Heq]. destruct (Hwrap _ Heq) as [-> ->]. done.
    + intros e [= <-] Hne. by destruct e0.
Qed.

End LoadProperties.

(* ================================================================== *)
(** ** The order of [sorted] *)

Lemma str_leb_total s : ∀ t, str_leb s t = true ∨ str_leb t s = true.
Proof.
  induction s as [|a s IH]; intros [|b t]; simpl; auto.
  destruct (Nat.ltb_spec (ord a) (ord b)), (Nat.ltb_spec (ord b) (ord a));
    auto; try lia.
  assert (ord a = ord b) as Heq by lia.
  rewrite Heq, Nat.eqb_refl. apply IH.
Qed.

Lemma str_leb_trans s : ∀ t u,
  str_leb s t = true → str_leb t u = true → str_leb s u = true.
Proof.
  induction s as [|a s IH]; intros [|b t] [|c u]; simpl; try done.
  destruct (Nat.ltb_spec (ord a) (ord b)), (Nat.ltb_spec (ord b) (ord c)),
    (Nat.ltb_spec (ord a) (ord c)); try done; try lia.
  - destruct (Nat.eqb_spec (ord b) (ord c)); [lia|done].
  - destruct (Nat.eqb_spec (ord a) (ord b)); [lia|done].
  - destruct (Nat.eqb_spec (ord a) (ord b)); [|done].
    destruct (Nat.eqb_spec (ord b) (ord c)); [|done].
    destruct (Nat.eqb_spec (ord a) (ord c)); [|lia]. apply IH.
Qed.

Global Instance str_le_total : Total str_le.
Proof.
  intros s t. unfold str_le.
  destruct (str_leb_total s t) as [->| ->]; simpl; auto.
Qed.

Global Instance str_le_trans : Transitive str_le.
Proof.
  intros s t u. unfold str_le. rewrite !Is_true_true. apply str_leb_trans.
Qed.

Lemma sorted_Sorted l : StronglySorted str_le (sorted l).
Proof. apply StronglySorted_merge_sort; apply _. Qed.

Lemma sorted_Permutation l : sorted l ≡ₚ l.
Proof. apply merge_sort_Permutation. Qed.

(* ================================================================== *)
(** ** Loops and comprehensions that succeed *)

Lemma comprehension_Forall2 {A B} (f : A → result B) l : ∀ out,
  comprehension f l = Ok out → Forall2 (λ x y, f x = Ok y) l out.
Proof.
  induction l as [|x l IH]; intros out; simpl.
  - intros [= <-]. constructor.
  - destruct (f x) as [y|] eqn:Hy; [|done]. simpl.
    destruct (comprehension f l) as [ys|]; [|done]. simpl.
    intros [= <-]. constructor; auto.
Qed.

Lemma comprehension_elem_of {A B} (f : A → result B) l out :
  comprehension f l = Ok out →
  ∀ y, y ∈ out ↔ ∃ x, x ∈ l ∧ f x = Ok y.
Proof.
  intros Hall%comprehension_Forall2 y.
  induction Hall as [|x z l out Hx _ IH].
  - split; [by intros ?%elem_of_nil|by intros (? & ?%elem_of_nil & _)].
  - rewrite elem_of_cons, IH. split.
    + intros [->|(x' & ? & ?)]; [exists x|exists x']; by rewrite elem_of_cons; auto.
    + intros (x' & [->|?]%elem_of_cons & Hx'); [left; congruence|right; eauto].
Qed.

Lemma comprehension_NoDup {A B} (f : A → result B) l out :
  comprehension f l = Ok out →
  (∀ x x' y, x ∈ l → x' ∈ l → f x = Ok y → f x' = Ok y → x = x') →
  NoDup l → NoDup out.
Proof.
  revert out. induction l as [|x l IH]; intros out; simpl.
  - intros [= <-] _ _. constructor.
  - destruct (f x) as [y|] eqn:Hy; [|done]. simpl.
    destruct (comprehension f l) as [ys|] eqn:Hys; [|done]. simpl.
    intros [= <-] Hinj [Hx Hl]%NoDup_cons. constructor.
    + intros (x' & Hx' & Hfx')%(comprehension_elem_of _ _ _ Hys).
      apply Hx. rewrite (Hinj x x' y); [done|by left|by right|done..].
    + apply IH; [done| |done]. intros x1 x2 z ? ?.
      apply Hinj; by right.
Qed.

Lemma comprehension_Raise {A B} (f : A → result B) l e :
  l ≠ [] → (∀ x, x ∈ l → f x = Raise e) → comprehension f l = Raise e.
Proof.
  destruct l as [|x l]; [done|]. intros _ Hall. simpl.
  by rewrite (Hall x) by (by left).
Qed.

Lemma for_each_invariant {A S} (P : S → Prop) (body : S → A → result S) l :
  (∀ s x s', P s → body s x = Ok s' → P s') →
  ∀ s out, P s → for_each body l s = Ok out → P out.
Proof.
  intros Hstep. induction l as [|x l IH]; intros s out Hs; simpl.
  - by intros [= <-].
  - destruct (body s x) as [s'|] eqn:Hb; [|done]. simpl. eauto.
Qed.

Lemma rewrap_Ok {A} caught wrap (r : result A) a :
  rewrap caught wrap r = Ok a → r = Ok a.
Proof. destruct r as [|e]; simpl; [done|]. by destruct (caught e). Qed.

(* ================================================================== *)
(** ** Paths are made of names *)

Lemma split_sep_free sep s : Forall (λ x, sep ∉ x) (split sep s).
Proof.
  induction s as [|c s IH]; simpl.
  - constructor; [apply not_elem_of_nil|done].
  - case_decide; [constructor; [apply not_elem_of_nil|done]|].
    destruct (split sep s) as [|h r]; [|apply Forall_cons in IH as [Hh Hr]].
    + constructor; [|done]. by intros ?%list_elem_of_singleton.
    + constructor; [|done]. by intros [?|?]%elem_of_cons.
Qed.

Section PathFacts.
Context `{Unicode}.

Lemma parse_names_valid rel : Forall valid_name (parse_names rel).
Proof.
  unfold parse_names. apply Forall_forall.
  intros x [[Hx1 Hx2] Hin]%list_elem_of_filter.
  repeat split; [done..|].
  by eapply (proj1 (Forall_forall _ _)) in Hin; [|apply split_sep_free].
Qed.

Lemma valid_name_no_root x l : valid_name x → has_root (x :: l) = false.
Proof.
  intros (Hne & _ & Hsep). destruct x as [|c x]; [done|]. simpl.
  unfold is_sep. apply bool_decide_eq_false_2. intros ->.
  apply Hsep. by left.
Qed.

Lemma valid_names_no_root p : Forall valid_name p → has_root p = false.
Proof. destruct 1; [done|]. by apply valid_name_no_root. Qed.

Lemma valid_names_wf p : Forall valid_name p → wf_path p.
Proof. intros Hp. unfold wf_path. by rewrite valid_names_no_root. Qed.

Lemma wf_path_app p names :
  wf_path p → Forall valid_name names → wf_path (p ++ names).
Proof.
  unfold wf_path. destruct p as [|x p].
  - intros _ Hn. simpl. by rewrite valid_names_no_root.
  - change (has_root ((x :: p) ++ names)) with (has_root (x :: p)).
    destruct (has_root (x :: p)); intros Hp Hn.
    + by apply Forall_app.
    + by apply Forall_app.
Qed.

Lemma parse_path_wf s : wf_path (parse_path s).
Proof.
  unfold parse_path.
  assert (∃ rel, splitroot s = ("", rel) ∨ splitroot s = ("/", rel)
                 ∨ splitroot s = ("//", rel)) as (rel & Hs).
  { unfold splitroot. destruct s as [|c s]; [eauto|].
    destruct (is_sep c); [|eauto]. destruct (_ =? 2); eauto. }
  pose proof (parse_names_valid rel) as Hv.
  destruct Hs as [->|[->| ->]]; [by apply valid_names_wf|done..].
Qed.

Lemma expanduser_wf W p p' :
  wf_path p → expanduser W p = Ok p' → wf_path p'.
Proof.
  unfold expanduser. destruct p as [|first names]; [by intros ? [= <-]|].
  destruct (negb _ && _) eqn:Hc; [|by intros ? [= <-]].
  apply andb_true_iff in Hc as [Hr%negb_true_iff _].
  unfold os_path_expanduser.
  destruct (expanduser_error W first); [done|]. cbn [bind].
  case_bool_decide; [done|]. unfold wf_path at 1. rewrite Hr.
  intros [_ Hn]%Forall_cons [= <-].
  apply wf_path_app; [apply parse_path_wf|done].
Qed.

Lemma relative_to_valid f other r :
  wf_path f → relative_to f other = Ok r → Forall valid_name r.
Proof.
  unfold relative_to, wf_path.
  case_bool_decide as Hn.
  - destruct (has_root f); [by intros ? [=]|]. by intros ? [= <-].
  - case_bool_decide as Ht; [|by intros ? [=]]. intros Hf [= <-].
    destruct (has_root f).
    + destruct f as [|x f]; [by rewrite drop_nil|]. simpl in Hf.
      destruct (length (parse_path other)) as [|n]; [done|]. simpl.
      by apply Forall_drop.
    + by apply Forall_drop.
Qed.

Lemma relative_to_inj f1 f2 other r :
  relative_to f1 other = Ok r → relative_to f2 other = Ok r → f1 = f2.
Proof.
  unfold relative_to. case_bool_decide as Hn.
  - destruct (has_root f1), (has_root f2);
      try (by intros [=]); try (by intros ? [=]). congruence.
  - repeat case_bool_decide; try (by intros [=]); try (by intros ? [=]).
    intros [= Hd1] [= Hd2].
    rewrite <-(take_drop (length (parse_path other)) f1).
    rewrite <-(take_drop (length (parse_path other)) f2). congruence.
Qed.

Lemma path_str_names r : Forall valid_name r → r ≠ [] → path_str r = join "/" r.
Proof.
  intros Hr Hne. unfold path_str. rewrite (valid_names_no_root r Hr).
  by destruct r.
Qed.

Lemma split_path_str r :
  Forall valid_name r → r ≠ [] → split "/" (path_str r) = r.
Proof.
  intros Hr Hne. rewrite path_str_names by done.
  apply (split_join "/"%char); [done|].
  eapply Forall_impl; [exact Hr|]. by intros x (_ & _ & ?).
Qed.

Lemma path_str_inj r1 r2 :
  Forall valid_name r1 → Forall valid_name r2 →
  path_str r1 = path_str r2 → r1 = r2.
Proof.
  intros H1 H2 Heq.
  destruct (decide (r1 = [])) as [->|Hn1], (decide (r2 = [])) as [->|Hn2].
  - done.
  - apply (f_equal (split "/")) in Heq.
    rewrite (split_path_str r2) in Heq by done.
    subst r2. apply Forall_cons in H2 as [(_ & ? & _) _]. done.
  - apply (f_equal (split "/")) in Heq.
    rewrite (split_path_str r1) in Heq by done.
    subst r1. apply Forall_cons in H1 as [(_ & ? & _) _]. done.
  - apply (f_equal (split "/")) in Heq. by rewrite !split_path_str in Heq.
Qed.

Lemma relative_str_inj f1 f2 other s :
  wf_path f1 → wf_path f2 →
  relative_str f1 other = Ok s → relative_str f2 other = Ok s → f1 = f2.
Proof.
  unfold relative_str. intros Hw1 Hw2.
  destruct (relative_to f1 other) as [r1|] eqn:Hr1; [|done].
  destruct (relative_to f2 other) as [r2|] eqn:Hr2; [|done].
  simpl. intros [= <-] [= Heq].
  pose proof (relative_to_valid _ _ _ Hw1 Hr1).
  pose proof (relative_to_valid _ _ _ Hw2 Hr2).
  apply path_str_inj in Heq; [|done..].
  subst r2. by eapply relative_to_inj.
Qed.

Lemma glob_wf W root pattern matches :
  wf_path root → glob W root pattern = Ok matches → Forall wf_path matches.
Proof.
  unfold glob. intros Hroot. destruct (scan W root pattern); [|done].
  simpl. intros [= <-]. apply Forall_fmap, Forall_forall. intros rel _.
  simpl. apply wf_path_app; [done|apply parse_names_valid].
Qed.

Lemma glob_rules_wf W root rules files :
  glob_rules W root rules = Ok files → ∀ f, f ∈ files → wf_path f.
Proof.
  unfold glob_rules.
  destruct (expanduser W (parse_path root)) as [root'|] eqn:He; [|done].
  simpl. intros Hf%rewrap_Ok.
  assert (wf_path root') as Hroot
    by (eapply expanduser_wf; [apply parse_path_wf|done]).
  refine (for_each_invariant (λ fs : gset path, ∀ f, f ∈ fs → wf_path f)
            _ _ _ _ _ _ Hf); [|by intros f ?%not_elem_of_empty].
  intros s rule s' Hs. destruct (glob W root' rule) as [ms|] eqn:Hg; [|done].
  simpl. intros [= <-] f [Hin|Hin]%elem_of_union; [by apply Hs|].
  apply elem_of_list_to_set, list_elem_of_filter in Hin as [_ Hin].
  apply glob_wf in Hg; [|done].
  by eapply (proj1 (Forall_forall _ _)) in Hg.
Qed.

End PathFacts.

(* ================================================================== *)
(** ** Properties of [far_glob] *)

Section FarGlobProperties.
Context `{Unicode}.
Context (W : World).

(** What a call that returns has computed on its way. *)
Lemma far_glob_Ok root rules ignore_rules out :
  far_glob W root rules ignore_rules = Ok out →
  ∃ (Included Ignored Excepted : gset path) (names : list str),
    included W root rules = Ok Included
    ∧ ignored W root ignore_rules = Ok Ignored
    ∧ exception_ignored W root ignore_rules = Ok Excepted
    ∧ comprehension (λ f, relative_str f root)
        (filter (λ f, ¬ (f ∈ Ignored ∧ f ∉ Excepted)) (elements Included))
      = Ok names
    ∧ out = sorted names.
Proof.
  unfold far_glob, included, ignored, exception_ignored.
  destruct (exception_ignore ignore_rules) as [[ign exc]|]; [|done]. simpl.
  destruct (proc rules) as [globs|]; [|done]. simpl.
  destruct (proc ign) as [ign_globs|]; [|done]. simpl.
  destruct (proc exc) as [exc_globs|]; [|done]. simpl.
  destruct (glob_rules W root globs) as [Included|]; [|done]. simpl.
  destruct (glob_rules W root ign_globs) as [Ignored|]; [|done]. simpl.
  destruct (glob_rules W root exc_globs) as [Excepted|]; [|done]. simpl.
  destruct (comprehension _ _) as [names|] eqn:Hnames; [|done]. simpl.
  intros [= <-]. by exists Included, Ignored, Excepted, names.
Qed.

Lemma included_wf root rules Included :
  included W root rules = Ok Included → ∀ f, f ∈ Included → wf_path f.
Proof.
  unfold included. destruct (proc rules) as [globs|]; [|done]. simpl.
  apply glob_rules_wf.
Qed.

(** C9: the list that [far_glob] returns is sorted and has no entry
    twice. *)
Theorem far_glob_sorted_nodup (root : str) (rules ignore_rules out : list str) :
  far_glob W root rules ignore_rules = Ok out →
  StronglySorted str_le out ∧ NoDup out.
Proof.
  intros (Included & Ignored & Excepted & names & Hinc & _ & _ & Hnames & ->)
    %far_glob_Ok.
  split; [apply sorted_Sorted|]. rewrite sorted_Permutation.
  eapply comprehension_NoDup; [exact Hnames| |].
  - intros f f' name [_ Hf%elem_of_elements]%list_elem_of_filter
      [_ Hf'%elem_of_elements]%list_elem_of_filter.
    apply relative_str_inj; by eapply included_wf.
  - apply NoDup_filter, NoDup_elements.
Qed.

(** C1: of the files that the include rules match, exactly those appear
    in the result that no ignore rule matches or that an exception rule
    matches as well; the result is made of the files of
    (Included − Ignored) ∪ (Included ∩ Ignored ∩ ExceptionIgnored). *)
Theorem far_glob_selection (root : str) (rules ignore_rules out : list str) :
  far_glob W root rules ignore_rules = Ok out →
  ∃ Included Ignored Excepted : gset path,
    included W root rules = Ok Included
    ∧ ignored W root ignore_rules = Ok Ignored
    ∧ exception_ignored W root ignore_rules = Ok Excepted
    ∧ (∀ f, f ∈ Included →
         (∃ name, relative_str f root = Ok name ∧ name ∈ out)
         ↔ f ∉ Ignored ∨ (f ∈ Ignored ∧ f ∈ Excepted))
    ∧ (∀ name, name ∈ out ↔
         ∃ f, f ∈ (Included ∖ Ignored) ∪ (Included ∩ Ignored ∩ Excepted)
              ∧ relative_str f root = Ok name).
Proof.
  intros (Included & Ignored & Excepted & names & Hinc & Hign & Hexc
          & Hnames & ->)%far_glob_Ok.
  exists Included, Ignored, Excepted. do 3 (split; [done|]).
  pose proof (comprehension_elem_of _ _ _ Hnames) as Hout.
  split.
  - intros f Hf. split.
    + intros (name & Hname & Hin). rewrite sorted_Permutation in Hin.
      apply Hout in Hin as (f' & [Hkeep Hf']%list_elem_of_filter & Hname').
      apply elem_of_elements in Hf'.
      assert (f = f') as <-
        by (eapply relative_str_inj; [by eapply included_wf..|done|done]).
      destruct (decide (f ∈ Ignored)), (decide (f ∈ Excepted)); tauto.
    + intros Hsel.
      assert (f ∈ filter (λ f, ¬ (f ∈ Ignored ∧ f ∉ Excepted))
                (elements Included)) as Hin.
      { apply list_elem_of_filter. rewrite elem_of_elements. tauto. }
      pose proof (comprehension_Forall2 _ _ _ Hnames) as Hall.
      apply list_elem_of_lookup in Hin as [i Hi].
      destruct (Forall2_lookup_l _ _ _ _ _ Hall Hi) as (name & Hn & Hname).
      exists name. split; [done|]. rewrite sorted_Permutation.
      by eapply list_elem_of_lookup_2.
  - intros name. rewrite sorted_Permutation, Hout. split.
    + intros (f & [Hkeep Hf%elem_of_elements]%list_elem_of_filter & Hname).
      exists f. split; [|done].
      rewrite elem_of_union, elem_of_difference, !elem_of_intersection.
      destruct (decide (f ∈ Ignored)), (decide (f ∈ Excepted)); tauto.
    + intros (f & Hf & Hname). exists f. split; [|done].
      apply list_elem_of_filter. rewrite elem_of_elements.
      revert Hf.
      rewrite elem_of_union, elem_of_difference, !elem_of_intersection.
      tauto.
Qed.

(** A path under an expanded home directory is not relative to a root
    written with a tilde. *)
Lemma relative_to_tilde (root : str) (first : str) (names rel : list str) :
  parse_path root = first :: names →
  "~" `prefix_of` first →
  "/" `prefix_of` os_expanduser W first →
  ∀ p, expanduser W (parse_path root) = Ok p →
       relative_str (p ++ rel) root = Raise ValueError.
Proof.
  intros Hroot [f1 ->] [h Hhome] p. rewrite Hroot. unfold expanduser.
  assert (has_root (("~" ++ f1) :: names) = false) as -> by done.
  assert (slice ("~" ++ f1) None (Some 1%Z) = "~") as ->
    by exact (slice_to _ 1).
  rewrite bool_decide_eq_true_2 by done. cbn [negb andb].
  unfold os_path_expanduser.
  destruct (expanduser_error W ("~" ++ f1)); [done|]. cbn [bind].
  rewrite Hhome.
  assert (slice ("/" ++ h) None (Some 1%Z) = "/") as ->
    by exact (slice_to _ 1).
  rewrite bool_decide_eq_false_2 by done.
  intros [= <-].
  unfold relative_str, relative_to. rewrite Hroot.
  cbn [length]. rewrite bool_decide_eq_false_2 by done.
  rewrite bool_decide_eq_false_2; [done|].
  assert (∃ a l, parse_path ("/"%char :: h) = ("/"%char :: a) :: l)
    as (a & l & ->).
  { unfold parse_path, splitroot. unfold is_sep at 1.
    rewrite bool_decide_eq_true_2 by done.
    destruct (_ =? 2); cbn [bool_decide app]; eauto. }
  by intros [= ? _].
Qed.

(** Every file of [glob_rules] lies under the expanded root. *)
Lemma glob_rules_under root rules files :
  glob_rules W root rules = Ok files →
  ∃ p, expanduser W (parse_path root) = Ok p
       ∧ ∀ f, f ∈ files → ∃ rel, f = p ++ rel.
Proof.
  unfold glob_rules.
  destruct (expanduser W (parse_path root)) as [p|]; [|done].
  cbn [bind]. intros Hf%rewrap_Ok. exists p. split; [done|].
  refine (for_each_invariant
            (λ fs : gset path, ∀ f, f ∈ fs → ∃ rel, f = p ++ rel)
            _ _ _ _ _ _ Hf); [|by intros f ?%not_elem_of_empty].
  intros s rule s' Hs. unfold glob.
  destruct (scan W p rule) as [rels|]; [|done]. cbn [bind].
  intros [= <-] f [Hin|Hin]%elem_of_union; [by apply Hs|].
  apply elem_of_list_to_set, list_elem_of_filter in Hin as [_ Hin].
  apply list_elem_of_fmap in Hin as (rel & -> & _). eauto.
Qed.

(** With a root written with a tilde, [far_glob] raises as soon as a file
    is selected. *)
Lemma far_glob_tilde (root : str) (rules ignore_rules : list str)
    (first : str) (names : list str)
    (Included Ignored Excepted : gset path) (f : path) :
  parse_path root = first :: names →
  "~" `prefix_of` first →
  "/" `prefix_of` os_expanduser W first →
  included W root rules = Ok Included →
  ignored W root ignore_rules = Ok Ignored →
  exception_ignored W root ignore_rules = Ok Excepted →
  f ∈ Included → ¬ (f ∈ Ignored ∧ f ∉ Excepted) →
  far_glob W root rules ignore_rules = Raise ValueError.
Proof.
  intros Hroot Htilde Hhome.
  unfold included, ignored, exception_ignored, far_glob.
  destruct (exception_ignore ignore_rules) as [[ign exc]|]; [|done].
  cbn [bind].
  destruct (proc rules) as [globs|]; [|done]. cbn [bind].
  destruct (proc ign) as [ign_globs|]; [|done]. cbn [bind].
  destruct (proc exc) as [exc_globs|]; [|done]. cbn [bind].
  intros Hinc -> -> Hf Hkeep. rewrite Hinc. cbn [bind].
  apply glob_rules_under in Hinc as (p & Hp & Hunder).
  rewrite (comprehension_Raise _ _ ValueError); [done| |].
  - intros Hnil.
    assert (f ∈ filter (λ f, ¬ (f ∈ Ignored ∧ f ∉ Excepted))
              (elements Included)) as Hin
      by (apply list_elem_of_filter; by rewrite elem_of_elements).
    rewrite Hnil in Hin. by apply elem_of_nil in Hin.
  - intros g [_ Hg%elem_of_elements]%list_elem_of_filter.
    destruct (Hunder g Hg) as [rel ->].
    by eapply relative_to_tilde.
Qed.

End FarGlobProperties.

(* ================================================================== *)
(** ** More on [parse_or]: its result as a fixed point *)

Section ParseOrFixedPoint.
Context `{Unicode}.

Lemma expand_pass_all rules :
  expand_pass rules = (expand_all rules, existsb matches rules).
Proof. apply expand_pass_eq. Qed.

Lemma no_match_no_group rules :
  existsb matches rules = false → Forall (λ r, ¬ has_group r) rules.
Proof.
  intros Hm. apply Forall_forall. intros r Hr Hg.
  apply matches_has_group in Hg.
  assert (existsb matches rules = true) as Ht
    by (apply existsb_exists; exists r; by rewrite <-list_elem_of_In).
  congruence.
Qed.

Lemma expand_all_no_group rules :
  Forall (λ r, ¬ has_group r) rules → expand_all rules = rules.
Proof.
  unfold expand_all. induction 1 as [|r rules Hr _ IH]; [done|]. csimpl.
  destruct (expansions_None r Hr) as [-> _]. by rewrite IH.
Qed.

Lemma expand_all_app l1 l2 :
  expand_all (l1 ++ l2) = expand_all l1 ++ expand_all l2.
Proof. apply bind_app. Qed.

Lemma parse_or_fuel_no_group fuel : ∀ rules out,
  parse_or_fuel fuel rules = Some out → Forall (λ r, ¬ has_group r) out.
Proof.
  induction fuel as [|fuel IH]; intros rules out; [done|].
  simpl. rewrite expand_pass_all.
  destruct (existsb matches rules) eqn:Hm; simpl; [apply IH|].
  intros [= <-]. apply no_match_no_group in Hm.
  by rewrite expand_all_no_group.
Qed.

Lemma parse_or_result rules :
  ∃ out, parse_or_fuel (parse_or_depth rules) rules = Some out
         ∧ parse_or rules = out.
Proof.
  destruct (parse_or_fuel_enough _ rules (parse_or_depth_enough rules))
    as [out Hout].
  exists out. split; [done|]. by eapply parse_or_fuel_Some.
Qed.

Lemma parse_or_no_group_out rules :
  Forall (λ r, ¬ has_group r) (parse_or rules).
Proof.
  destruct (parse_or_result rules) as (out & Hout & ->).
  by eapply parse_or_fuel_no_group.
Qed.

(** X1: no rule of the result of [parse_or] contains an alternation
    group: the recursion stops at a fixed point of the expansion. *)
Theorem parse_or_group_free (rules : list str) :
  Forall (λ rule, ¬ has_group rule) (parse_or rules)
  ∧ expand_pass (parse_or rules) = (parse_or rules, false).
Proof.
  pose proof (parse_or_no_group_out rules) as Hn. split; [done|].
  rewrite expand_pass_all, expand_all_no_group by done. f_equal.
  destruct (existsb matches (parse_or rules)) eqn:Hm; [|done].
  apply existsb_exists in Hm as (r & Hr%list_elem_of_In & Hm).
  apply matches_has_group in Hm.
  by eapply (proj1 (Forall_forall _ _)) in Hn.
Qed.

(** X2: [parse_or] is idempotent: a second call on its result changes
    nothing. *)
Theorem parse_or_idempotent (rules : list str) :
  parse_or (parse_or rules) = parse_or rules.
Proof. apply parse_or_no_group, parse_or_no_group_out. Qed.

Lemma iter_expand_all_app n : ∀ l1 l2,
  Nat.iter n expand_all (l1 ++ l2)
  = Nat.iter n expand_all l1 ++ Nat.iter n expand_all l2.
Proof.
  induction n as [|n IH]; intros l1 l2; [done|].
  by rewrite !Nat.iter_succ_r, expand_all_app, IH.
Qed.

Lemma parse_or_fuel_iter fuel : ∀ rules out n,
  parse_or_fuel fuel rules = Some out → fuel ≤ n →
  Nat.iter n expand_all rules = out.
Proof.
  induction fuel as [|fuel IH]; intros rules out n; [done|].
  simpl. rewrite expand_pass_all.
  destruct (existsb matches rules) eqn:Hm; simpl.
  - intros Hf Hn. destruct n as [|n]; [lia|].
    rewrite Nat.iter_succ_r. apply (IH _ _ _ Hf). lia.
  - intros [= <-] _. apply no_match_no_group in Hm.
    rewrite expand_all_no_group by done.
    induction n as [|n IHn]; [done|].
    by rewrite Nat.iter_succ_r, expand_all_no_group.
Qed.

Lemma parse_or_iter rules n :
  parse_or_depth rules ≤ n → parse_or rules = Nat.iter n expand_all rules.
Proof.
  intros Hn. destruct (parse_or_result rules) as (out & Hout & ->).
  symmetry. by eapply parse_or_fuel_iter.
Qed.

Lemma parse_or_app_aux l1 l2 :
  parse_or (l1 ++ l2) = parse_or l1 ++ parse_or l2.
Proof.
  set (n := Nat.max (parse_or_depth (l1 ++ l2))
              (Nat.max (parse_or_depth l1) (parse_or_depth l2))).
  rewrite (parse_or_iter (l1 ++ l2) n), (parse_or_iter l1 n),
    (parse_or_iter l2 n) by lia.
  apply iter_expand_all_app.
Qed.

Lemma parse_or_nil : parse_or [] = [].
Proof. by apply parse_or_no_group. Qed.

Lemma parse_or_bind rules : parse_or rules = rules ≫= (λ r, parse_or [r]).
Proof.
  induction rules as [|r rules IH]; [apply parse_or_nil|]. csimpl.
  by rewrite <-IH, <-parse_or_app_aux.
Qed.

(** X3: every rule is expanded on its own, and the results keep the order
    of the rules. *)
Theorem parse_or_app (rules1 rules2 : list str) :
  parse_or (rules1 ++ rules2) = parse_or rules1 ++ parse_or rules2.
Proof. apply parse_or_app_aux. Qed.

End ParseOrFixedPoint.

(* ================================================================== *)
(** ** [proc] as a rewriting of each expanded rule *)

Section ProcRewriting.
Context `{Unicode}.

Lemma slice_suffix_3 (rule : str) :
  slice rule (Some (-3)%Z) None = "/**" ↔ "/**" `suffix_of` rule.
Proof. by apply (slice_tail_eq rule "/**"). Qed.

Lemma slice_suffix_4 (rule : str) :
  slice rule (Some (-4)%Z) None = "/**/" ↔ "/**/" `suffix_of` rule.
Proof. by apply (slice_tail_eq rule "/**/"). Qed.

Lemma suffix_slash (s : str) c : "/" `suffix_of` (s ++ [c]) ↔ c = "/"%char.
Proof.
  split.
  - intros Hs. symmetry. by apply (suffix_snoc_inv_1 _ _ [] s).
  - intros ->. by apply suffix_app_r.
Qed.

(** The tail rewriting of [proc], once the last character is known. *)
Lemma proc_tail_rewrite (s : str) c :
  (if bool_decide (c = "/"%char) then (s ++ [c]) ++ "**/*"
   else if bool_decide (slice (s ++ [c]) (Some (-3)%Z) None = "/**")
        then (s ++ [c]) ++ "/*"
   else if bool_decide (slice (s ++ [c]) (Some (-4)%Z) None = "/**/")
        then (s ++ [c]) ++ "*"
   else s ++ [c])
  = tail_rewrite (s ++ [c]).
Proof.
  unfold tail_rewrite.
  destruct (decide ("/" `suffix_of` s ++ [c])) as [Hs|Hs];
    rewrite suffix_slash in Hs.
  { by rewrite bool_decide_eq_true_2. }
  rewrite bool_decide_eq_false_2 by done.
  destruct (decide ("/**" `suffix_of` s ++ [c])) as [H3|H3].
  { by rewrite bool_decide_eq_true_2 by (by apply slice_suffix_3). }
  rewrite bool_decide_eq_false_2 by (by rewrite slice_suffix_3).
  rewrite bool_decide_eq_false_2; [done|].
  rewrite slice_suffix_4. intros H4. apply Hs. symmetry.
  by apply (suffix_snoc_inv_1 _ _ "/**" s).
Qed.

Lemma tail_rewrite_nonempty (rule : str) : rule ≠ "" → tail_rewrite rule ≠ "".
Proof.
  intros Hr. unfold tail_rewrite. repeat case_decide; by destruct rule.
Qed.

(** After the tail rewriting no rule is the single slash. *)
Lemma tail_rewrite_not_slash (rule : str) : tail_rewrite rule ≠ "/".
Proof.
  unfold tail_rewrite.
  destruct (decide ("/" `suffix_of` rule)) as [Hs|Hs].
  { intros Heq. apply (f_equal length) in Heq.
    rewrite length_app in Heq. simpl in Heq. lia. }
  destruct (decide ("/**" `suffix_of` rule)) as [H3|H3].
  { intros Heq. apply (f_equal length) in Heq.
    rewrite length_app in Heq. simpl in Heq.
    apply suffix_length in H3. simpl in H3. lia. }
  intros ->. by apply Hs.
Qed.

(** The body of the loop of [proc] on a rule that is not empty: the
    branch for a tail of two stars between slashes and the guard on the
    empty rule play no part. *)
Lemma proc_rule_globs rules rule :
  rule ≠ "" → proc_rule rules rule = Ok (rules ++ rule_globs rule).
Proof.
  intros Hr. unfold proc_rule, rule_globs.
  destruct rule as [|c s _] using rev_ind; [done|].
  rewrite getitem_last. cbn [bind]. rewrite proc_tail_rewrite.
  pose proof (tail_rewrite_nonempty (s ++ [c]) Hr) as Hne.
  pose proof (tail_rewrite_not_slash (s ++ [c])) as Hns.
  destruct (tail_rewrite (s ++ [c])) as [|c0 rule]; [done|].
  rewrite getitem_first. cbn [bind].
  destruct (decide ("/" `prefix_of` c0 :: rule)) as [Hp|Hp].
  - assert (c0 = "/"%char) as ->
      by (destruct Hp as [k Hk]; by injection Hk).
    rewrite bool_decide_eq_true_2 by done.
    change 1%Z with (Z.of_nat 1). rewrite slice_from.
    rewrite bool_decide_eq_true_2; [done|]. simpl. rewrite drop_0.
    by intros ->.
  - rewrite bool_decide_eq_false_2.
    2:{ intros ->. apply Hp. by exists rule. }
    rewrite bool_decide_eq_true_2 by done.
    by rewrite <-app_assoc.
Qed.

Lemma for_each_proc_rule rules : ∀ acc,
  Forall (λ rule, rule ≠ "") rules →
  for_each proc_rule rules acc = Ok (acc ++ rules ≫= rule_globs).
Proof.
  induction rules as [|rule rules IH]; intros acc Hne; csimpl.
  { by rewrite app_nil_r. }
  apply Forall_cons in Hne as [Hr Hne].
  rewrite proc_rule_globs by done. cbn [bind].
  rewrite IH by done. by rewrite <-app_assoc.
Qed.

Lemma proc_globs rules :
  Forall (λ rule, rule ≠ "") rules →
  proc rules = Ok (parse_or rules ≫= rule_globs).
Proof.
  intros Hne. unfold proc.
  by rewrite for_each_proc_rule by (by apply parse_or_nonempty).
Qed.

Lemma rule_globs_shape rule :
  rule ≠ "" →
  Forall (λ glob, glob ≠ "") (rule_globs rule)
  ∧ 1 ≤ length (rule_globs rule) ≤ 2.
Proof.
  intros Hr. unfold rule_globs.
  pose proof (tail_rewrite_nonempty rule Hr) as Hne.
  pose proof (tail_rewrite_not_slash rule) as Hns.
  destruct (decide _) as [Hp|Hp]; simpl.
  - split; [|lia]. constructor; [|done].
    destruct Hp as [k Hk]. rewrite Hk. simpl. rewrite drop_0. intros ->.
    by rewrite Hk in Hns.
  - split; [|lia]. by repeat constructor.
Qed.

Lemma bind_length_bounds {A B} (f : A → list B) (l : list A) :
  Forall (λ x, 1 ≤ length (f x) ≤ 2) l →
  length l ≤ length (l ≫= f) ≤ 2 * length l.
Proof.
  induction 1 as [|x l Hx _ IH]; csimpl; [lia|].
  rewrite length_app. lia.
Qed.

End ProcRewriting.

Section ProcExtras.
Context `{Unicode}.

Lemma not_elem_of_empty_rule (rules : list str) :
  "" ∉ rules ↔ Forall (λ rule, rule ≠ "") rules.
Proof.
  rewrite Forall_forall. split.
  - intros Hn r Hr ->. by apply Hn.
  - intros Hall Hin. by apply (Hall _ Hin).
Qed.

Lemma has_group_app_l (x y : str) :
  has_group (x ++ y) → ")"%char ∉ y → has_group x.
Proof.
  intros (pre & alts & post & Ha & Heq) Hy.
  unfold group_text in Heq.
  assert (x ++ y = (pre ++ "(" ++ join "|" alts) ++ [")"%char] ++ post)
    as Heq'.
  { rewrite Heq. rewrite <-!app_assoc. reflexivity. }
  apply app_eq_app in Heq' as [l [[-> Hl]|[_ ->]]].
  - destruct l as [|c l].
    + exfalso. apply Hy. simpl in Hl. subst y. by left.
    + injection Hl as <- _. exists pre, alts, l. split; [done|].
      unfold group_text. by rewrite <-!app_assoc.
  - exfalso. apply Hy. apply elem_of_app. right. by left.
Qed.

Lemma tail_rewrite_id (rule : str) :
  ¬ "/" `suffix_of` rule → ¬ "/**" `suffix_of` rule →
  tail_rewrite rule = rule.
Proof. intros H1 H3. unfold tail_rewrite. by rewrite !decide_False. Qed.


Lemma proc_Ok_nonempty rules globs :
  proc rules = Ok globs → Forall (λ rule, rule ≠ "") rules.
Proof.
  intros Hp. apply not_elem_of_empty_rule. intros Hin.
  by rewrite (proc_empty_rule _ Hin) in Hp.
Qed.

Lemma proc_app_iff rules1 rules2 globs :
  proc (rules1 ++ rules2) = Ok globs
  ↔ ∃ globs1 globs2,
      proc rules1 = Ok globs1 ∧ proc rules2 = Ok globs2
      ∧ globs = globs1 ++ globs2.
Proof.
  split.
  - intros Hp. pose proof (proc_Ok_nonempty _ _ Hp) as Hne.
    rewrite (proc_globs _ Hne) in Hp. injection Hp as <-.
    apply Forall_app in Hne as [H1 H2].
    exists (parse_or rules1 ≫= rule_globs), (parse_or rules2 ≫= rule_globs).
    rewrite (proc_globs _ H1), (proc_globs _ H2).
    by rewrite parse_or_app_aux, bind_app.
  - intros (globs1 & globs2 & Hp1 & Hp2 & ->).
    pose proof (proc_Ok_nonempty _ _ Hp1) as H1.
    pose proof (proc_Ok_nonempty _ _ Hp2) as H2.
    rewrite (proc_globs _ H1) in Hp1. rewrite (proc_globs _ H2) in Hp2.
    injection Hp1 as <-. injection Hp2 as <-.
    rewrite proc_globs by (by apply Forall_app).
    by rewrite parse_or_app_aux, bind_app.
Qed.

(** X5: [proc] returns on a list of rules exactly when it returns on
    both parts of the list, and the globs of the list are then the globs
    of the first part followed by the globs of the second. *)
Theorem proc_app (rules1 rules2 globs : list str) :
  proc (rules1 ++ rules2) = Ok globs
  ↔ ∃ globs1 globs2,
      proc rules1 = Ok globs1 ∧ proc rules2 = Ok globs2
      ∧ globs = globs1 ++ globs2.
Proof. apply proc_app_iff. Qed.

Lemma for_each_exception_ignore_rule rules : ∀ ign exc,
  Forall (λ rule, rule ≠ "") rules →
  for_each exception_ignore_rule rules (ign, exc)
  = Ok (ign ++ filter (λ rule, ¬ "!" `prefix_of` rule) rules,
        exc ++ (drop 1 <$> filter (λ rule, "!" `prefix_of` rule) rules)).
Proof.
  induction rules as [|rule rules IH]; intros ign exc Hne; simpl.
  { by rewrite !app_nil_r. }
  apply Forall_cons in Hne as [Hr Hne].
  destruct rule as [|c rule]; [done|]. rewrite getitem_first. cbn [bind].
  rewrite !filter_cons.
  destruct (decide ("!" `prefix_of` c :: rule)) as [Hp|Hp].
  - assert (c = "!"%char) as ->
      by (destruct Hp as [k Hk]; by injection Hk).
    rewrite bool_decide_eq_true_2 by done.
    rewrite decide_False by (by intros Hn; apply Hn).
    rewrite IH by done. change 1%Z with (Z.of_nat 1).
    rewrite slice_from. csimpl. by rewrite <-app_assoc.
  - rewrite bool_decide_eq_false_2.
    2:{ intros ->. apply Hp. by exists rule. }
    rewrite decide_True by done.
    rewrite IH by done. by rewrite <-app_assoc.
Qed.

Lemma exception_ignore_split rules :
  Forall (λ rule, rule ≠ "") rules →
  exception_ignore rules
  = Ok (filter (λ rule, ¬ "!" `prefix_of` rule) rules,
        drop 1 <$> filter (λ rule, "!" `prefix_of` rule) rules).
Proof. apply for_each_exception_ignore_rule. Qed.

Lemma exception_ignore_Raise rules e :
  exception_ignore rules = Raise e ↔ "" ∈ rules ∧ e = IndexError.
Proof.
  split.
  - intros Hr. destruct (decide ("" ∈ rules)) as [Hin|Hin].
    + rewrite (exception_ignore_empty_rule _ Hin) in Hr.
      by injection Hr as <-.
    + apply not_elem_of_empty_rule in Hin.
      by rewrite (exception_ignore_split _ Hin) in Hr.
  - intros [Hin ->]. by apply exception_ignore_empty_rule.
Qed.

(** X6: [exception_ignore] raises exactly when one of the rules is the
    empty string, wherever it stands, and the exception is then
    [IndexError]; on such a list [proc] does not return either, and an
    [IndexError] of [proc] means that one of the rules is empty. *)
Theorem empty_rule_index_error (rules : list str) :
  (∀ e, exception_ignore rules = Raise e ↔ "" ∈ rules ∧ e = IndexError)
  ∧ ("" ∈ rules → ∀ globs, proc rules ≠ Ok globs)
  ∧ (proc rules = Raise IndexError → "" ∈ rules).
Proof.
  split; [intros e; apply exception_ignore_Raise|]. split.
  - intros Hin globs. by rewrite (proc_empty_rule _ Hin).
  - intros Hr. destruct (decide ("" ∈ rules)) as [Hin|Hin]; [done|].
    apply not_elem_of_empty_rule in Hin.
    by rewrite (proc_globs _ Hin) in Hr.
Qed.

(** X7: [exception_ignore] splits the rules by their first character and
    keeps the order on both sides: the rules that do not start with an
    exclamation mark, unchanged, and the others without that mark. *)
Theorem exception_ignore_partition (rules : list str) :
  Forall (λ rule, rule ≠ "") rules →
  exception_ignore rules
  = Ok (filter (λ rule, ¬ "!" `prefix_of` rule) rules,
        drop 1 <$> filter (λ rule, "!" `prefix_of` rule) rules).
Proof. apply exception_ignore_split. Qed.

(** X8: a rule without a group that starts with a slash and has no
    directory tail yields one glob, the rule without its first slash. *)
Theorem proc_root_relative (r : str) :
  ¬ has_group ("/" ++ r) →
  ¬ "/" `suffix_of` "/" ++ r → ¬ "/**" `suffix_of` "/" ++ r →
  proc ["/" ++ r] = Ok [r].
Proof.
  intros Hg H1 H3. rewrite proc_globs by (by repeat constructor).
  rewrite parse_or_no_group by (by constructor).
  change (["/" ++ r] ≫= rule_globs) with (rule_globs ("/" ++ r) ++ []).
  rewrite app_nil_r. unfold rule_globs.
  rewrite tail_rewrite_id by done.
  rewrite decide_True by (by exists r). simpl. by rewrite drop_0.
Qed.

(** X9: a trailing slash and a trailing slash with two stars name the
    same directory: both rules give the same globs. *)
Theorem proc_dir_synonyms (x : str) :
  ¬ has_group x → proc [x ++ "/"] = proc [x ++ "/**"].
Proof.
  intros Hg.
  assert (¬ has_group (x ++ "/")) as Hg1.
  { intros Hx%has_group_app_l; [done|]. compute_done. }
  assert (¬ has_group (x ++ "/**")) as Hg3.
  { intros Hx%has_group_app_l; [done|]. compute_done. }
  rewrite !proc_globs by (repeat constructor; by destruct x).
  rewrite !parse_or_no_group by (by constructor).
  change ([x ++ "/"] ≫= rule_globs) with (rule_globs (x ++ "/") ++ []).
  change ([x ++ "/**"] ≫= rule_globs) with (rule_globs (x ++ "/**") ++ []).
  unfold rule_globs.
  assert (tail_rewrite (x ++ "/") = tail_rewrite (x ++ "/**")) as ->;
    [|done].
  unfold tail_rewrite.
  rewrite decide_True by (by apply suffix_app_r).
  rewrite decide_False.
  2:{ replace (x ++ "/**") with ((x ++ "/*") ++ "*")
        by (by rewrite <-app_assoc).
      by rewrite suffix_slash. }
  rewrite decide_True by (by apply suffix_app_r).
  by rewrite <-!app_assoc.
Qed.

(** X10: when [proc] returns, no glob is the empty string, and every
    rule of the expansion has given one glob or two. *)
Theorem proc_globs_bounds (rules globs : list str) :
  proc rules = Ok globs →
  Forall (λ glob, glob ≠ "") globs
  ∧ length (parse_or rules) ≤ length globs ≤ 2 * length (parse_or rules).
Proof.
  intros Hp.
  assert (Forall (λ rule, rule ≠ "") rules) as Hne.
  { apply not_elem_of_empty_rule. intros Hin.
    by rewrite (proc_empty_rule _ Hin) in Hp. }
  rewrite (proc_globs _ Hne) in Hp. injection Hp as <-.
  pose proof (parse_or_nonempty _ Hne) as Hne'.
  split.
  - apply Forall_bind. eapply Forall_impl; [exact Hne'|].
    intros rule Hr. by apply rule_globs_shape.
  - apply bind_length_bounds. eapply Forall_impl; [exact Hne'|].
    intros rule Hr. by apply rule_globs_shape.
Qed.

End ProcExtras.

(* ================================================================== *)
(** ** [glob_rules] as a union over the rules *)

Section GlobRulesExtras.
Context `{Unicode}.
Context (W : World).

Lemma for_each_glob_Ok p rules : ∀ (acc files : gset path),
  for_each
    (λ (files : gset path) rule,
       do matches <- glob W p rule;
       Ok (files ∪ list_to_set (filter (λ f, is_file W f = true) matches)))
    rules acc = Ok files
  ↔ Forall (accepted W p) rules
    ∧ files = acc ∪ list_to_set
                (filter (λ f, is_file W f = true) (rules ≫= matches_of W p)).
Proof.
  induction rules as [|rule rules IH]; intros acc files; csimpl.
  - rewrite (right_id_L ∅ (∪)). split.
    + by intros [= <-].
    + by intros [_ ->].
  - unfold matches_of at 1, accepted.
    destruct (glob W p rule) as [ms|e] eqn:Hg; cbn [bind].
    + rewrite IH, filter_app, list_to_set_app_L, (assoc_L (∪)).
      rewrite Forall_cons. split; [|tauto].
      intros [? ?]. split; [|done]. split; [|done]. by exists ms.
    + split; [done|]. intros [[[ms Hms] _]%Forall_cons _]. congruence.
Qed.

Lemma for_each_glob_Raise p rules : ∀ (acc : gset path) e,
  for_each
    (λ (files : gset path) rule,
       do matches <- glob W p rule;
       Ok (files ∪ list_to_set (filter (λ f, is_file W f = true) matches)))
    rules acc = Raise e
  ↔ ∃ l1 rule l2, rules = l1 ++ rule :: l2
      ∧ Forall (accepted W p) l1 ∧ glob W p rule = Raise e.
Proof.
  induction rules as [|rule rules IH]; intros acc e; simpl.
  - split; [done|]. intros (l1 & rule & l2 & Heq & _). by destruct l1.
  - destruct (glob W p rule) as [ms|e0] eqn:Hg; cbn [bind].
    + rewrite IH. split.
      * intros (l1 & r & l2 & -> & Hl1 & Hr).
        exists (rule :: l1), r, l2. split; [done|]. split; [|done].
        constructor; [by exists ms|done].
      * intros (l1 & r & l2 & Heq & Hl1 & Hr).
        destruct l1 as [|r1 l1]; simplify_eq/=; [congruence|].
        apply Forall_cons in Hl1 as [_ Hl1]. by exists l1, r, l2.
    + split.
      * intros [= <-]. by exists [], rule, rules.
      * intros (l1 & r & l2 & Heq & Hl1 & Hr).
        destruct l1 as [|r1 l1]; simplify_eq/=; [congruence|].
        apply Forall_cons in Hl1 as [[ms Hms] _]. congruence.
Qed.

Lemma glob_rules_Ok_iff root rules files :
  glob_rules W root rules = Ok files
  ↔ ∃ p, expanduser W (parse_path root) = Ok p
      ∧ Forall (accepted W p) rules
      ∧ files = list_to_set
          (filter (λ f, is_file W f = true) (rules ≫= matches_of W p)).
Proof.
  unfold glob_rules.
  destruct (expanduser W (parse_path root)) as [p|e]; cbn [bind].
  - split.
    + intros Hf%rewrap_Ok. apply for_each_glob_Ok in Hf as [Hacc ->].
      exists p. by rewrite (left_id_L ∅ (∪)).
    + intros (p' & [= <-] & Hacc & ->).
      destruct (for_each _ rules ∅) as [files|e] eqn:Hf.
      * apply for_each_glob_Ok in Hf as [_ ->].
        by rewrite (left_id_L ∅ (∪)).
      * exfalso.
        apply for_each_glob_Raise in Hf as (l1 & r & l2 & -> & _ & Hr).
        apply Forall_app in Hacc as [_ [[ms Hms] _]%Forall_cons].
        congruence.
  - split; [done|]. by intros (p' & ? & _).
Qed.


(** X11: a file is in the set of [glob_rules] exactly when it is a
    regular file and one of the rules matches it below the expanded
    root. *)
Theorem glob_rules_elem_of (root : str) (rules : list str)
    (files : gset path) :
  glob_rules W root rules = Ok files →
  ∃ p, expanduser W (parse_path root) = Ok p
       ∧ ∀ f, f ∈ files ↔
              is_file W f = true
              ∧ ∃ rule matches, rule ∈ rules
                  ∧ glob W p rule = Ok matches ∧ f ∈ matches.
Proof.
  intros (p & Hp & Hacc & ->)%glob_rules_Ok_iff. exists p. split; [done|].
  intros f. rewrite elem_of_list_to_set, list_elem_of_filter.
  rewrite list_elem_of_bind. split.
  - intros [Hfile (rule & Hf & Hrule)]. split; [done|].
    exists rule, (matches_of W p rule). split; [done|]. split; [|done].
    eapply (proj1 (Forall_forall _ _)) in Hacc as [ms Hms]; [|done].
    unfold matches_of. by rewrite Hms.
  - intros [Hfile (rule & ms & Hrule & Hms & Hf)]. split; [done|].
    exists rule. split; [|done]. unfold matches_of. by rewrite Hms.
Qed.


Lemma glob_rules_Permutation root rules1 rules2 files :
  rules1 ≡ₚ rules2 →
  glob_rules W root rules1 = Ok files → glob_rules W root rules2 = Ok files.
Proof.
  intros Hperm (p & Hp & Hacc & ->)%glob_rules_Ok_iff.
  apply glob_rules_Ok_iff. exists p. split; [done|]. split.
  - by rewrite <-Hperm.
  - apply list_to_set_perm_L. by rewrite Hperm.
Qed.

(** X13: the order of the rules does not matter to [glob_rules] when it
    returns. *)
Theorem glob_rules_order (root : str) (rules1 rules2 : list str)
    (files : gset path) :
  rules1 ≡ₚ rules2 →
  glob_rules W root rules1 = Ok files → glob_rules W root rules2 = Ok files.
Proof. apply glob_rules_Permutation. Qed.

End GlobRulesExtras.

(* ================================================================== *)
(** ** More on [far_glob] *)

Section FarGlobExtras.
Context `{Unicode}.
Context (W : World).

Lemma far_glob_Ok_iff root rules ignore_rules out :
  far_glob W root rules ignore_rules = Ok out
  ↔ ∃ (Included Ignored Excepted : gset path) (names : list str),
      included W root rules = Ok Included
      ∧ ignored W root ignore_rules = Ok Ignored
      ∧ exception_ignored W root ignore_rules = Ok Excepted
      ∧ comprehension (λ f, relative_str f root)
          (filter (λ f, ¬ (f ∈ Ignored ∧ f ∉ Excepted)) (elements Included))
        = Ok names
      ∧ out = sorted names.
Proof.
  split; [apply far_glob_Ok|].
  intros (Included & Ignored & Excepted & names & Hinc & Hign & Hexc
          & Hnames & ->).
  revert Hinc Hign Hexc.
  unfold far_glob, included, ignored, exception_ignored.
  destruct (exception_ignore ignore_rules) as [[ign exc]|]; [|done].
  cbn [bind].
  destruct (proc rules) as [globs|]; [|done]. cbn [bind].
  destruct (proc ign) as [ign_globs|]; [|done]. cbn [bind].
  destruct (proc exc) as [exc_globs|]; [|done]. cbn [bind].
  intros -> -> ->. cbn [bind]. by rewrite Hnames.
Qed.

Lemma exception_ignore_Ok_nonempty rules st :
  exception_ignore rules = Ok st → Forall (λ rule, rule ≠ "") rules.
Proof.
  intros Hp. apply not_elem_of_empty_rule. intros Hin.
  by rewrite (exception_ignore_empty_rule _ Hin) in Hp.
Qed.

Lemma parse_or_Permutation rules1 rules2 :
  rules1 ≡ₚ rules2 → parse_or rules1 ≡ₚ parse_or rules2.
Proof.
  intros Hp. rewrite (parse_or_bind rules1), (parse_or_bind rules2).
  by rewrite Hp.
Qed.

Lemma proc_Permutation rules1 rules2 globs1 :
  rules1 ≡ₚ rules2 → proc rules1 = Ok globs1 →
  ∃ globs2, proc rules2 = Ok globs2 ∧ globs1 ≡ₚ globs2.
Proof.
  intros Hp Hproc. pose proof (proc_Ok_nonempty _ _ Hproc) as Hne.
  rewrite (proc_globs _ Hne) in Hproc. injection Hproc as <-.
  rewrite Hp in Hne. rewrite (proc_globs _ Hne).
  eexists. split; [done|]. by rewrite (parse_or_Permutation _ _ Hp).
Qed.

Lemma exception_ignore_Permutation rules1 rules2 ign1 exc1 :
  rules1 ≡ₚ rules2 → exception_ignore rules1 = Ok (ign1, exc1) →
  ∃ ign2 exc2, exception_ignore rules2 = Ok (ign2, exc2)
               ∧ ign1 ≡ₚ ign2 ∧ exc1 ≡ₚ exc2.
Proof.
  intros Hp Hex. pose proof (exception_ignore_Ok_nonempty _ _ Hex) as Hne.
  rewrite (exception_ignore_split _ Hne) in Hex. injection Hex as <- <-.
  rewrite Hp in Hne. rewrite (exception_ignore_split _ Hne).
  do 2 eexists. split; [done|]. by rewrite Hp.
Qed.

Lemma included_Permutation root rules1 rules2 files :
  rules1 ≡ₚ rules2 →
  included W root rules1 = Ok files → included W root rules2 = Ok files.
Proof.
  intros Hp. unfold included.
  destruct (proc rules1) as [globs1|] eqn:Hproc; [|done]. cbn [bind].
  destruct (proc_Permutation _ _ _ Hp Hproc) as (globs2 & -> & Hg).
  cbn [bind]. by apply glob_rules_Permutation.
Qed.

Lemma ignored_Permutation root rules1 rules2 files :
  rules1 ≡ₚ rules2 →
  ignored W root rules1 = Ok files → ignored W root rules2 = Ok files.
Proof.
  intros Hp. unfold ignored.
  destruct (exception_ignore rules1) as [[ign1 exc1]|] eqn:Hex; [|done].
  destruct (exception_ignore_Permutation _ _ _ _ Hp Hex)
    as (ign2 & exc2 & -> & Hi & He).
  cbn [bind]. apply (included_Permutation root _ _ _ Hi).
Qed.

Lemma exception_ignored_Permutation root rules1 rules2 files :
  rules1 ≡ₚ rules2 →
  exception_ignored W root rules1 = Ok files →
  exception_ignored W root rules2 = Ok files.
Proof.
  intros Hp. unfold exception_ignored.
  destruct (exception_ignore rules1) as [[ign1 exc1]|] eqn:Hex; [|done].
  destruct (exception_ignore_Permutation _ _ _ _ Hp Hex)
    as (ign2 & exc2 & -> & Hi & He).
  cbn [bind]. apply (included_Permutation root _ _ _ He).
Qed.

(** X14: the result of [far_glob] does not depend on the order of the
    include rules nor on the order of the ignore rules. *)
Theorem far_glob_order (root : str)
    (rules rules' ignore_rules ignore_rules' out : list str) :
  rules ≡ₚ rules' → ignore_rules ≡ₚ ignore_rules' →
  far_glob W root rules ignore_rules = Ok out →
  far_glob W root rules' ignore_rules' = Ok out.
Proof.
  intros Hr Hi (Included & Ignored & Excepted & names & Hinc & Hign & Hexc
                & Hnames & ->)%far_glob_Ok_iff.
  apply far_glob_Ok_iff. exists Included, Ignored, Excepted, names.
  split; [by eapply included_Permutation|].
  split; [by eapply ignored_Permutation|].
  split; [by eapply exception_ignored_Permutation|]. done.
Qed.

Lemma filter_all {A} (P : A → Prop) `{∀ x, Decision (P x)} (l : list A) :
  (∀ x, P x) → filter P l = l.
Proof.
  intros HP. induction l as [|x l IH]; [done|].
  by rewrite filter_cons_True, IH.
Qed.

Lemma proc_nil : proc [] = Ok [].
Proof. unfold proc. by rewrite parse_or_nil. Qed.

Lemma glob_rules_nil root files rules :
  glob_rules W root rules = Ok files → glob_rules W root [] = Ok ∅.
Proof.
  intros (p & Hp & _)%glob_rules_Ok_iff. apply glob_rules_Ok_iff.
  exists p. split; [done|]. by split; [constructor|].
Qed.

(** X15: ignore rules that all start with an exclamation mark ignore
    nothing: the result is the one without any ignore rule. *)
Theorem far_glob_exceptions_only (root : str)
    (rules ignore_rules out : list str) :
  Forall (λ rule, "!" `prefix_of` rule) ignore_rules →
  far_glob W root rules ignore_rules = Ok out →
  far_glob W root rules [] = Ok out.
Proof.
  intros Hall. unfold far_glob.
  destruct (exception_ignore ignore_rules) as [[ign exc]|] eqn:Hex; [|done].
  pose proof (exception_ignore_Ok_nonempty _ _ Hex) as Hne.
  rewrite (exception_ignore_split _ Hne) in Hex. injection Hex as <- _.
  assert (filter (λ rule, ¬ "!" `prefix_of` rule) ignore_rules = []) as ->.
  { clear Hne. induction Hall as [|r l Hr _ IH]; [done|].
    by rewrite filter_cons_False by (by intros Hn; apply Hn). }
  change (exception_ignore []) with (Ok ([] : list str, [] : list str)).
  cbn [bind].
  destruct (proc rules) as [globs|]; [|done]. cbn [bind].
  rewrite proc_nil. cbn [bind].
  destruct (proc exc) as [exc_globs|]; [|done]. cbn [bind].
  destruct (glob_rules W root globs) as [files|] eqn:Hfiles; [|done].
  cbn [bind].
  rewrite (glob_rules_nil _ _ _ Hfiles). cbn [bind].
  destruct (glob_rules W root exc_globs) as [Excepted|]; [|done].
  cbn [bind].
  rewrite !filter_all; [done|..];
    intros f [Hf _]; by apply not_elem_of_empty in Hf.
Qed.

(** X16: an ignore rule that is the empty string makes [far_glob] raise
    [IndexError]; with an include rule that is the empty string, or an
    ignore rule that is only an exclamation mark, [far_glob] does not
    return, whatever the root and the file system. *)
Theorem far_glob_empty_rule (root : str) (rules ignore_rules : list str) :
  ("" ∈ ignore_rules →
   far_glob W root rules ignore_rules = Raise IndexError)
  ∧ ("" ∈ rules ∨ "!" ∈ ignore_rules →
     ∀ out, far_glob W root rules ignore_rules ≠ Ok out).
Proof.
  split.
  { intros Hi. unfold far_glob.
    by rewrite (exception_ignore_empty_rule _ Hi). }
  intros Hcase out. unfold far_glob.
  destruct (decide ("" ∈ ignore_rules)) as [Hi|Hi].
  { by rewrite (exception_ignore_empty_rule _ Hi). }
  apply not_elem_of_empty_rule in Hi as Hne.
  rewrite (exception_ignore_split _ Hne). cbn [bind].
  destruct (decide ("" ∈ rules)) as [Hr|Hr].
  { by rewrite (proc_empty_rule _ Hr). }
  apply not_elem_of_empty_rule in Hr as Hner.
  rewrite (proc_globs _ Hner). cbn [bind].
  rewrite proc_globs.
  2:{ apply Forall_forall. intros r [_ Hin]%list_elem_of_filter.
      by eapply (proj1 (Forall_forall _ _)) in Hne. }
  cbn [bind]. destruct Hcase as [?|Hbang]; [done|].
  rewrite proc_empty_rule; [done|].
  apply list_elem_of_fmap. exists "!". split; [done|].
  apply list_elem_of_filter. split; [by exists ""|done].
Qed.

(** X17: with a root written with a tilde that the home directory
    replaces, [far_glob] can only return the empty list. *)
Theorem far_glob_tilde_empty (root : str) (rules ignore_rules out : list str)
    (first : str) (names : list str) :
  parse_path root = first :: names →
  "~" `prefix_of` first →
  "/" `prefix_of` os_expanduser W first →
  far_glob W root rules ignore_rules = Ok out →
  out = [].
Proof.
  intros Hroot Htilde Hhome Hout.
  destruct (far_glob_Ok _ _ _ _ _ Hout)
    as (Included & Ignored & Excepted & ns & Hinc & Hign & Hexc & Hns & ->).
  destruct (filter _ (elements Included)) as [|f fs] eqn:Hsel.
  { by injection Hns as <-. }
  assert (f ∈ filter (λ f, ¬ (f ∈ Ignored ∧ f ∉ Excepted))
            (elements Included)) as Hf by (rewrite Hsel; by left).
  apply list_elem_of_filter in Hf as [Hkeep Hf%elem_of_elements].
  by rewrite (far_glob_tilde W root rules ignore_rules first names
                Included Ignored Excepted f) in Hout.
Qed.

Lemma path_str_relative r :
  Forall valid_name r → ¬ "/" `prefix_of` path_str r ∧ path_str r ≠ "".
Proof.
  intros Hr. destruct r as [|a r]; [split; [by intros [? ?]|done]|].
  rewrite path_str_names by done.
  apply Forall_cons in Hr as [(Hne & _ & Hsep) _].
  destruct a as [|c a]; [done|]. rewrite join_cons_char. split; [|done].
  intros [k [= -> _]]. apply Hsep. by left.
Qed.

(** X18: every name that [far_glob] returns is a relative path text, and
    it is the path, relative to the root, of a regular file that lies
    below the expanded root. *)
Theorem far_glob_names (root : str) (rules ignore_rules out : list str)
    (name : str) :
  far_glob W root rules ignore_rules = Ok out →
  name ∈ out →
  ¬ "/" `prefix_of` name ∧ name ≠ ""
  ∧ ∃ p f, expanduser W (parse_path root) = Ok p
           ∧ p `prefix_of` f
           ∧ is_file W f = true
           ∧ relative_str f root = Ok name.
Proof.
  intros (Included & Ignored & Excepted & ns & Hinc & _ & _ & Hns & ->)
    %far_glob_Ok.
  rewrite sorted_Permutation. intros Hin.
  apply (comprehension_elem_of _ _ _ Hns) in Hin
    as (f & [_ Hf%elem_of_elements]%list_elem_of_filter & Hname).
  pose proof (included_wf W _ _ _ Hinc f Hf) as Hwf.
  unfold included in Hinc.
  destruct (proc rules) as [globs|]; [|done]. cbn [bind] in Hinc.
  destruct (glob_rules_under W _ _ _ Hinc) as (p & Hp & Hunder).
  destruct (Hunder f Hf) as [rel Hrel].
  apply glob_rules_Ok_iff in Hinc as (p' & Hp' & _ & ->).
  apply elem_of_list_to_set, list_elem_of_filter in Hf as [Hfile _].
  unfold relative_str in Hname.
  destruct (relative_to f root) as [r|] eqn:Hr; [|done].
  injection Hname as <-.
  destruct (path_str_relative r) as [? ?];
    [by eapply relative_to_valid|].
  do 2 (split; [done|]). exists p, f. split; [done|].
  split; [by exists rel|]. split; [done|].
  unfold relative_str. by rewrite Hr.
Qed.

End FarGlobExtras.

(* ================================================================== *)
(** ** More rules: what [far_glob] gains and loses *)

Section FarGlobMonotone.
Context `{Unicode}.
Context (W : World).

Lemma glob_rules_app root globs1 globs2 files :
  glob_rules W root (globs1 ++ globs2) = Ok files →
  ∃ files1 files2,
    glob_rules W root globs1 = Ok files1
    ∧ glob_rules W root globs2 = Ok files2
    ∧ files = files1 ∪ files2.
Proof.
  intros (p & Hp & [H1 H2]%Forall_app & ->)%glob_rules_Ok_iff.
  do 2 eexists. split; [|split].
  - apply glob_rules_Ok_iff. by exists p.
  - apply glob_rules_Ok_iff. by exists p.
  - by rewrite bind_app, filter_app, list_to_set_app_L.
Qed.

Lemma proc_app_Ok rules1 rules2 globs :
  proc (rules1 ++ rules2) = Ok globs →
  ∃ globs1 globs2,
    proc rules1 = Ok globs1 ∧ proc rules2 = Ok globs2
    ∧ globs = globs1 ++ globs2.
Proof. apply proc_app_iff. Qed.

Lemma included_app root rules1 rules2 files :
  included W root (rules1 ++ rules2) = Ok files →
  ∃ files1 files2,
    included W root rules1 = Ok files1
    ∧ included W root rules2 = Ok files2
    ∧ files = files1 ∪ files2.
Proof.
  unfold included.
  destruct (proc (rules1 ++ rules2)) as [globs|] eqn:Hp; [|done].
  apply proc_app_Ok in Hp as (globs1 & globs2 & -> & -> & ->).
  cbn [bind]. apply glob_rules_app.
Qed.

Lemma exception_ignore_app rules1 rules2 ign exc :
  exception_ignore (rules1 ++ rules2) = Ok (ign, exc) →
  ∃ ign1 exc1 ign2 exc2,
    exception_ignore rules1 = Ok (ign1, exc1)
    ∧ exception_ignore rules2 = Ok (ign2, exc2)
    ∧ ign = ign1 ++ ign2 ∧ exc = exc1 ++ exc2.
Proof.
  intros Hex.
  pose proof (exception_ignore_Ok_nonempty _ _ Hex) as Hne.
  rewrite (exception_ignore_split _ Hne) in Hex.
  apply Forall_app in Hne as [Hne1 Hne2].
  rewrite !filter_app, fmap_app in Hex. injection Hex as <- <-.
  rewrite (exception_ignore_split _ Hne1), (exception_ignore_split _ Hne2).
  by do 4 eexists.
Qed.

Lemma ignored_app root rules1 rules2 files :
  ignored W root (rules1 ++ rules2) = Ok files →
  ∃ files1 files2,
    ignored W root rules1 = Ok files1
    ∧ ignored W root rules2 = Ok files2
    ∧ files = files1 ∪ files2.
Proof.
  unfold ignored.
  destruct (exception_ignore (rules1 ++ rules2)) as [[ign exc]|] eqn:Hex;
    [|done].
  apply exception_ignore_app in Hex
    as (ign1 & exc1 & ign2 & exc2 & -> & -> & -> & ->).
  cbn [bind]. apply included_app.
Qed.

Lemma exception_ignored_app root rules1 rules2 files :
  exception_ignored W root (rules1 ++ rules2) = Ok files →
  ∃ files1 files2,
    exception_ignored W root rules1 = Ok files1
    ∧ exception_ignored W root rules2 = Ok files2
    ∧ files = files1 ∪ files2.
Proof.
  unfold exception_ignored.
  destruct (exception_ignore (rules1 ++ rules2)) as [[ign exc]|] eqn:Hex;
    [|done].
  apply exception_ignore_app in Hex
    as (ign1 & exc1 & ign2 & exc2 & -> & -> & -> & ->).
  cbn [bind]. apply included_app.
Qed.

Lemma filter_none {A} (P : A → Prop) `{∀ x, Decision (P x)} (l : list A) :
  Forall (λ x, ¬ P x) l → filter P l = [].
Proof.
  induction 1 as [|x l Hx _ IH]; [done|]. by rewrite filter_cons_False.
Qed.

(** Rules that are all exceptions ignore no file. *)
Lemma ignored_exceptions root rules files :
  Forall (λ rule, "!" `prefix_of` rule) rules →
  ignored W root rules = Ok files → files = ∅.
Proof.
  intros Hall. unfold ignored.
  destruct (exception_ignore rules) as [[ign exc]|] eqn:Hex; [|done].
  pose proof (exception_ignore_Ok_nonempty _ _ Hex) as Hne.
  rewrite (exception_ignore_split _ Hne) in Hex. injection Hex as <- _.
  rewrite filter_none.
  2:{ eapply Forall_impl; [exact Hall|]. intros r Hr Hn. by apply Hn. }
  cbn [bind]. rewrite proc_nil. cbn [bind].
  by intros (p & _ & _ & ->)%glob_rules_Ok_iff.
Qed.

(** Rules none of which is an exception except no file. *)
Lemma exception_ignored_none root rules files :
  Forall (λ rule, ¬ "!" `prefix_of` rule) rules →
  exception_ignored W root rules = Ok files → files = ∅.
Proof.
  intros Hall. unfold exception_ignored.
  destruct (exception_ignore rules) as [[ign exc]|] eqn:Hex; [|done].
  pose proof (exception_ignore_Ok_nonempty _ _ Hex) as Hne.
  rewrite (exception_ignore_split _ Hne) in Hex. injection Hex as _ <-.
  rewrite filter_none by done.
  cbn [bind fmap list_fmap]. rewrite proc_nil. cbn [bind].
  by intros (p & _ & _ & ->)%glob_rules_Ok_iff.
Qed.

Lemma far_glob_elem_of root rules ignore_rules out :
  far_glob W root rules ignore_rules = Ok out →
  ∃ Included Ignored Excepted : gset path,
    included W root rules = Ok Included
    ∧ ignored W root ignore_rules = Ok Ignored
    ∧ exception_ignored W root ignore_rules = Ok Excepted
    ∧ ∀ name, name ∈ out ↔
        ∃ f, f ∈ Included ∧ ¬ (f ∈ Ignored ∧ f ∉ Excepted)
             ∧ relative_str f root = Ok name.
Proof.
  intros (Included & Ignored & Excepted & names & Hinc & Hign & Hexc
          & Hnames & ->)%far_glob_Ok.
  exists Included, Ignored, Excepted. do 3 (split; [done|]).
  intros name.
  rewrite sorted_Permutation, (comprehension_elem_of _ _ _ Hnames).
  split.
  - intros (f & [? ?%elem_of_elements]%list_elem_of_filter & ?). by exists f.
  - intros (f & ? & ? & ?). exists f. split; [|done].
    apply list_elem_of_filter. by rewrite elem_of_elements.
Qed.

(** X19: more include rules and more exceptions to the ignore rules
    never take a file out of the result. *)
Theorem far_glob_gains (root : str)
    (rules rules' ignore_rules exceptions out out' : list str) :
  Forall (λ rule, "!" `prefix_of` rule) exceptions →
  far_glob W root rules ignore_rules = Ok out →
  far_glob W root (rules ++ rules') (ignore_rules ++ exceptions) = Ok out' →
  out ⊆ out'.
Proof.
  intros Hexc
    (Inc & Ign & Exc & Hinc & Hign & Hex & Hout)%far_glob_elem_of
    (Inc' & Ign' & Exc' & Hinc' & Hign' & Hex' & Hout')%far_glob_elem_of.
  apply included_app in Hinc' as (I1 & I2 & HI1 & _ & ->).
  apply ignored_app in Hign' as (G1 & G2 & HG1 & HG2 & ->).
  apply exception_ignored_app in Hex' as (E1 & E2 & HE1 & _ & ->).
  apply (ignored_exceptions _ _ _ Hexc) in HG2 as ->.
  assert (I1 = Inc) as -> by congruence.
  assert (G1 = Ign) as -> by congruence.
  assert (E1 = Exc) as -> by congruence.
  intros name (f & Hf & Hkeep & Hname)%Hout. apply Hout'.
  exists f. split; [apply elem_of_union; by left|]. split; [|done].
  rewrite !elem_of_union. intros [[Hi|Hi] He]; [|by apply not_elem_of_empty in Hi].
  apply Hkeep. split; [done|]. intros He'. apply He. by left.
Qed.

(** X20: more ignore rules that are no exceptions never bring a file
    into the result. *)
Theorem far_glob_loses (root : str)
    (rules ignore_rules ignore_rules' out out' : list str) :
  Forall (λ rule, ¬ "!" `prefix_of` rule) ignore_rules' →
  far_glob W root rules ignore_rules = Ok out →
  far_glob W root rules (ignore_rules ++ ignore_rules') = Ok out' →
  out' ⊆ out.
Proof.
  intros Hnone
    (Inc & Ign & Exc & Hinc & Hign & Hex & Hout)%far_glob_elem_of
    (Inc' & Ign' & Exc' & Hinc' & Hign' & Hex' & Hout')%far_glob_elem_of.
  apply ignored_app in Hign' as (G1 & G2 & HG1 & _ & ->).
  apply exception_ignored_app in Hex' as (E1 & E2 & HE1 & HE2 & ->).
  apply (exception_ignored_none _ _ _ Hnone) in HE2 as ->.
  assert (Inc' = Inc) as -> by congruence.
  assert (G1 = Ign) as -> by congruence.
  assert (E1 = Exc) as -> by congruence.
  intros name (f & Hf & Hkeep & Hname)%Hout'. apply Hout.
  exists f. split; [done|]. split; [|done].
  intros [Hi He]. apply Hkeep. split; [apply elem_of_union; by left|].
  rewrite elem_of_union. intros [He'|He']; [done|].
  by apply not_elem_of_empty in He'.
Qed.

End FarGlobMonotone.

(* ================================================================== *)
(** ** The rules of an ignore file, as [far_glob] takes them *)

Section LoadExtras.
Context `{Unicode}.

Lemma drop_while_id p (s : str) :
  match s with c :: _ => p c = false | [] => True end → drop_while p s = s.
Proof. destruct s as [|c s]; [done|]. simpl. by intros ->. Qed.

Lemma strip_last s :
  match reverse (strip s) with
  | c :: _ => is_space c = false
  | [] => True
  end.
Proof. unfold strip. rewrite reverse_involutive. apply drop_while_head. Qed.

Lemma strip_idemp s : strip (strip s) = strip s.
Proof.
  unfold strip at 1.
  rewrite (drop_while_id _ (strip s)) by apply strip_head.
  rewrite drop_while_id by apply strip_last.
  apply reverse_involutive.
Qed.

Lemma kept_lines_kept lines :
  Forall (λ rule, kept rule ∧ strip rule = rule) (kept_lines lines).
Proof.
  apply Forall_forall. unfold kept_lines.
  intros rule [Hk (line & -> & _)%list_elem_of_fmap]%list_elem_of_filter.
  split; [done|apply strip_idemp].
Qed.

Lemma load_ignore_rules_Ok W file_path rules :
  load_ignore_rules W file_path = Ok rules →
  ∃ lines, open_expanded W file_path = Ok lines ∧ rules = kept_lines lines.
Proof.
  rewrite load_ignore_rules_rewrap.
  destruct (open_expanded W file_path) as [lines|e]; [|done].
  intros [= <-]. by exists lines.
Qed.

(** X21: the rules that [load_ignore_rules] returns are trimmed and not
    empty, so [exception_ignore] splits them; none of the rules to
    ignore is empty, and one of the exceptions is empty exactly when one
    line of the file is a lone exclamation mark: [proc] then does not
    return on the exceptions. *)
Theorem load_ignore_rules_feeds (W : World) (file_path : str)
    (rules : list str) :
  load_ignore_rules W file_path = Ok rules →
  Forall (λ rule, rule ≠ "" ∧ strip rule = rule) rules
  ∧ ∃ ignore_rules exception_ignore_rules,
      exception_ignore rules = Ok (ignore_rules, exception_ignore_rules)
      ∧ ("" ∉ ignore_rules)
      ∧ ("" ∈ exception_ignore_rules ↔ "!" ∈ rules)
      ∧ ("!" ∈ rules → ∀ globs, proc exception_ignore_rules ≠ Ok globs).
Proof.
  intros (lines & _ & ->)%load_ignore_rules_Ok.
  pose proof (kept_lines_kept lines) as Hk.
  assert (Forall (λ rule, rule ≠ "") (kept_lines lines)) as Hne.
  { eapply Forall_impl; [exact Hk|]. by intros r [(? & _) _]. }
  split.
  { eapply Forall_impl; [exact Hk|]. by intros r [(? & _) ?]. }
  rewrite (exception_ignore_split _ Hne). do 2 eexists. split; [done|].
  assert ("" ∈ drop 1 <$> filter (λ rule, "!" `prefix_of` rule)
                             (kept_lines lines)
          ↔ "!" ∈ kept_lines lines) as Hbang.
  { rewrite list_elem_of_fmap. split.
    - intros (r & Hr & [[k ->] Hin]%list_elem_of_filter).
      simpl in Hr. rewrite drop_0 in Hr. by subst k.
    - intros Hin. exists "!". split; [done|].
      apply list_elem_of_filter. split; [by exists ""|done]. }
  split; [|split; [done|]].
  - intros [_ Hin]%list_elem_of_filter.
    by eapply (proj1 (Forall_forall _ _)) in Hne.
  - intros Hin globs. rewrite proc_empty_rule; [done|]. by apply Hbang.
Qed.

End LoadExtras.

(* ================================================================== *)
(** ** The arguments for ripgrep *)

Lemma comprehension_Ok {A B} (f : A → result B) l :
  Forall (λ x, ∃ y, f x = Ok y) l → ∃ out, comprehension f l = Ok out.
Proof.
  induction 1 as [|x l [y Hy] _ [out IH]]; simpl; [by eexists|].
  rewrite Hy, IH. by eexists.
Qed.

Lemma comprehension_Raise_inv {A B} (f : A → result B) l e :
  comprehension f l = Raise e → ∃ x, x ∈ l ∧ f x = Raise e.
Proof.
  induction l as [|x l IH]; simpl; [done|].
  destruct (f x) as [y|e'] eqn:Hx; cbn [bind].
  - destruct (comprehension f l) as [ys|e'']; [done|]. cbn [bind].
    intros [= ->]. destruct IH as (x' & ? & ?); [done|].
    exists x'. split; [by right|done].
  - intros [= ->]. exists x. split; [by left|done].
Qed.

Lemma flag_pairs_elem_of (f : str → str) (l : list str) (x : str) :
  x ∈ (d ← l; g ← [true; false]; [if g : bool then "-g" else f d])
  ↔ (l ≠ [] ∧ x = "-g") ∨ ∃ d, d ∈ l ∧ x = f d.
Proof.
  rewrite list_elem_of_bind. split.
  - intros (d & Hx & Hd). csimpl in Hx.
    apply elem_of_cons in Hx as [->|Hx%list_elem_of_singleton].
    + left. split; [|done]. intros ->. by apply elem_of_nil in Hd.
    + right. by exists d.
  - intros [[Hl ->]|(d & Hd & ->)].
    + destruct l as [|d l]; [done|]. exists d. split; [|by left]. by left.
    + exists d. split; [|done]. csimpl. right. by left.
Qed.

Lemma flag_pairs_bind (f : str → str) (l : list str) :
  (d ← l; g ← [true; false]; [if g : bool then "-g" else f d])
  = l ≫= (λ d, ["-g"; f d]).
Proof. done. Qed.

Lemma join_flags (f : str → str) (l : list str) :
  join " " ((λ d, "-g " ++ f d) <$> l) = join " " (l ≫= (λ d, ["-g"; f d])).
Proof.
  induction l as [|d l IH]; [done|].
  destruct l as [|d' l]; [done|].
  transitivity (("-g " ++ f d) ++ " "
                ++ join " " ((λ d, "-g " ++ f d) <$> (d' :: l))); [done|].
  rewrite IH. by rewrite <-app_assoc.
Qed.

Section RipgrepRules.

Lemma rg_rules_glob_bind (rules : list str) :
  filter (λ r, r ∉ ["*"; "**/*"]) rules ≫= (λ d, ["-g"; d])
  = rules ≫= (λ r, if decide (r = "*" ∨ r = "**/*") then []
                   else ["-g"; r]).
Proof.
  induction rules as [|r rules IH]; [done|].
  rewrite filter_cons, (bind_cons _ r rules), <-IH.
  destruct (decide (r = "*" ∨ r = "**/*")) as [Hr|Hr].
  - rewrite decide_False; [done|].
    rewrite !not_elem_of_cons. tauto.
  - rewrite decide_True; [done|].
    rewrite !not_elem_of_cons. split; [tauto|]. split; [tauto|].
    apply not_elem_of_nil.
Qed.

(** X22: in list mode [rg_rules_glob] goes through the rules in the
    order given and passes, for every rule other than the two catch-all
    rules, the flag and then the rule, as often as the rule is given;
    the catch-all rules are never among the arguments. *)
Theorem rg_rules_glob_list (rules : list str) :
  rg_rules_glob rules false
  = Args (rules ≫= (λ r, if decide (r = "*" ∨ r = "**/*") then []
                         else ["-g"; r]))
  ∧ ∀ args, rg_rules_glob rules false = Args args →
            ("*" ∉ args) ∧ ("**/*" ∉ args).
Proof.
  assert (rg_rules_glob rules false
          = Args (rules ≫= (λ r, if decide (r = "*" ∨ r = "**/*") then []
                                 else ["-g"; r]))) as Heq.
  { unfold rg_rules_glob. rewrite flag_pairs_bind.
    by rewrite rg_rules_glob_bind. }
  split; [done|]. rewrite Heq. intros args [= <-].
  split; intros (r & Hin & _)%list_elem_of_bind;
    destruct (decide (r = "*" ∨ r = "**/*")) as [?|Hr];
    try (by apply elem_of_nil in Hin);
    apply elem_of_cons in Hin as [?|Hin%list_elem_of_singleton];
    try done; subst r; tauto.
Qed.

(** X23: the text of string mode, cut at its blanks, gives the arguments
    of list mode with every rule between double quotes, when no rule
    holds a blank and one rule at least is passed. *)
Theorem rg_rules_glob_modes (rules : list str) :
  Forall (λ rule, " "%char ∉ rule) rules →
  filter (λ r, r ∉ ["*"; "**/*"]) rules ≠ [] →
  ∃ text args,
    rg_rules_glob rules true = Joined text
    ∧ rg_rules_glob rules false = Args (args ≫= (λ d, ["-g"; d]))
    ∧ split " " text = args ≫= (λ d, ["-g"; quote ++ d ++ quote]).
Proof.
  intros Hblank Hne. do 2 eexists. split; [done|]. split; [done|].
  rewrite (join_flags (λ d, quote ++ d ++ quote)).
  apply (split_join " "%char).
  - destruct (filter _ rules); [done|]. done.
  - apply Forall_bind, Forall_forall.
    intros d [_ Hd]%list_elem_of_filter.
    eapply (proj1 (Forall_forall _ _)) in Hblank; [|exact Hd].
    repeat constructor; [compute_done|].
    rewrite !elem_of_app. intros [?|[?|?]]; [|done|];
      by apply (list_elem_of_singleton (A:=ascii)) in H.
Qed.

End RipgrepRules.

Section RipgrepIgnore.
Context `{Unicode}.
Context (W : World).
Context (set_order : list str → list str).

Lemma read_text_Ok p text :
  read_text W p = Ok text
  ↔ ∃ lines, open_r W p = Ok lines ∧ text = mjoin lines.
Proof.
  unfold read_text. destruct (open_r W p) as [lines|e]; cbn [bind].
  - split; [intros [= <-]; by exists lines|].
    by intros (lines' & [= <-] & ->).
  - split; [done|]. by intros (? & ? & _).
Qed.

Lemma read_text_Raise p e : read_text W p = Raise e ↔ open_r W p = Raise e.
Proof.
  unfold read_text. destruct (open_r W p) as [lines|e']; cbn [bind];
    [split; intros [=]|split; by intros [= ->]].
Qed.

(** X24: a listed file that does not exist is passed over, and
    [rg_ignore_globs] returns exactly when [open] and the reading succeed
    on every listed file that exists; when it raises, the exception is
    the one of [open] or of the reading of such a file, as it is. *)
Theorem rg_ignore_globs_outcome (files : list str) (as_str : bool) :
  ((∃ out, rg_ignore_globs W set_order files as_str = Ok out)
   ↔ Forall (λ file, path_exists W file = true →
                     ∃ lines, open_r W file = Ok lines) files)
  ∧ ∀ e, rg_ignore_globs W set_order files as_str = Raise e →
         ∃ file, file ∈ files ∧ path_exists W file = true
                 ∧ open_r W file = Raise e.
Proof.
  unfold rg_ignore_globs.
  destruct (comprehension _ _) as [sublists|e0] eqn:Hc; cbn [bind].
  - split; [|done]. split; [intros _|by eexists].
    apply Forall_forall. intros file Hfile Hex.
    assert (file ∈ filter (λ f, path_exists W f = true) files) as Hin
      by (by apply list_elem_of_filter).
    apply comprehension_Forall2 in Hc.
    apply list_elem_of_lookup in Hin as [i Hi].
    destruct (Forall2_lookup_l _ _ _ _ _ Hc Hi) as (y & _ & Hy).
    destruct (read_text W file) as [text|] eqn:Ht; [|done].
    apply read_text_Ok in Ht as (lines & Hlines & _). by exists lines.
  - apply comprehension_Raise_inv in Hc
      as (file & [Hex Hfile]%list_elem_of_filter & Hr).
    destruct (read_text W file) as [text|e1] eqn:Ht; [done|].
    cbn [bind] in Hr. injection Hr as ->.
    apply read_text_Raise in Ht.
    split.
    + split; [by intros [? ?]|]. intros Hall.
      eapply (proj1 (Forall_forall _ _)) in Hall; [|exact Hfile].
      destruct (Hall Hex) as [lines Hl]. congruence.
    + intros e [= <-]. by exists file.
Qed.

(** X25: in list mode every glob of [rg_ignore_globs] is passed once,
    negated and after its flag; the globs are the lines of the files
    that exist that are not blank and hold no hash sign, taken as they
    are written. *)
Theorem rg_ignore_globs_list (files : list str) (args : list str) :
  set_order_ok set_order →
  rg_ignore_globs W set_order files false = Ok (Args args) →
  ∃ ignored,
    args = ignored ≫= (λ d, ["-g"; "!" ++ d])
    ∧ NoDup ignored
    ∧ ∀ g, g ∈ ignored ↔
           strip g ≠ "" ∧ ("#"%char ∉ g)
           ∧ ∃ file lines, file ∈ files
               ∧ path_exists W file = true
               ∧ open_r W file = Ok lines
               ∧ g ∈ split "010" (mjoin lines).
Proof.
  intros Hset. unfold rg_ignore_globs.
  destruct (comprehension _ _) as [sublists|] eqn:Hc; [|done].
  cbn [bind]. intros [= <-]. eexists. split; [done|].
  destruct (Hset (filter (λ ignore_glob,
              0 < length (strip ignore_glob) ∧ "#"%char ∉ ignore_glob)
              (mjoin sublists))) as [Hnd Hin].
  split; [done|]. intros g. rewrite Hin, list_elem_of_filter.
  rewrite list_elem_of_join.
  assert (0 < length (strip g) ↔ strip g ≠ "") as ->
    by (destruct (strip g); simpl; split; (done || lia)).
  pose proof (comprehension_elem_of _ _ _ Hc) as Hsub.
  split.
  - intros [[? ?] (sub & Hg & (file & [Hex Hfile]%list_elem_of_filter & Hf)
                          %Hsub)].
    do 2 (split; [done|]).
    destruct (read_text W file) as [text|] eqn:Ht; [|done].
    cbn [bind] in Hf. injection Hf as <-.
    apply read_text_Ok in Ht as (lines & Hl & ->). by exists file, lines.
  - intros (? & ? & file & lines & Hfile & Hex & Hl & Hg). split; [done|].
    exists (split "010" (mjoin lines)). split; [done|].
    apply Hsub. exists file. split.
    + by apply list_elem_of_filter.
    + assert (read_text W file = Ok (mjoin lines)) as ->; [|done].
      apply read_text_Ok. by exists lines.
Qed.

End RipgrepIgnore.

Lemma remove_dups_set_order_ok : set_order_ok (remove_dups (A:=str)).
Proof.
  intros l. split; [apply NoDup_remove_dups|].
  intros x. apply elem_of_remove_dups.
Qed.

(* ================================================================== *)
(** ** The statements at concrete inputs *)

Section Concrete.
Existing Instance latin1.

(** *** What the interpreter answers, and the model with it *)

(** The example of the docstring of [parse_or]. *)
Example parse_or_docstring :
  parse_or [".*(cpp|hpp|py).(c|h|hs).*"] =
  [".*cpp.c.*"; ".*hpp.c.*"; ".*py.c.*"; ".*cpp.h.*"; ".*hpp.h.*";
   ".*py.h.*"; ".*cpp.hs.*"; ".*hpp.hs.*"; ".*py.hs.*"].
Proof. vm_compute. reflexivity. Qed.

(** [search] on rules with two groups, with a newline, with nested
    parentheses and with an empty alternative. *)
Example rgx_search_probes :
  rgx_search "(a|b)-(c|d)"
  = Some {| group_pre := "(a|b)-"; group_or := "(c|d)"; group_post := "" |}
  ∧ rgx_search ("a" ++ newline ++ "(b|c)")
    = Some {| group_pre := ""; group_or := "(b|c)"; group_post := "" |}
  ∧ rgx_search ("x(a|b)y" ++ newline ++ "z")
    = Some {| group_pre := "x"; group_or := "(a|b)"; group_post := "y" |}
  ∧ rgx_search "((a|b)|c)"
    = Some {| group_pre := "("; group_or := "(a|b)"; group_post := "|c)" |}
  ∧ rgx_search "(a||b)" = None
  ∧ rgx_search "()" = None.
Proof. vm_compute. repeat split; reflexivity. Qed.

(** Rows of the table in the docstring of [proc], and two rules of the
    specification. *)
Example proc_docstring :
  proc ["/xx"] = Ok ["xx"]
  ∧ proc ["xx"] = Ok ["**/xx/**/*"; "**/xx"]
  ∧ proc ["/xx/"] = Ok ["xx/**/*"]
  ∧ proc ["/xx/**"] = Ok ["xx/**/*"]
  ∧ proc ["/xx.sh"] = Ok ["xx.sh"]
  ∧ proc ["xx/"] = Ok ["**/xx/**/*/**/*"; "**/xx/**/*"].
Proof. vm_compute. repeat split; reflexivity. Qed.

Example exception_ignore_demo :
  exception_ignore ["sub/"; "!sub/b.txt"] = Ok (["sub/"], ["sub/b.txt"]).
Proof. vm_compute. reflexivity. Qed.

Example parse_path_probes :
  parse_path "/home//u/./proj/" = ["/"; "home"; "u"; "proj"]
  ∧ parse_path "//home" = ["//"; "home"]
  ∧ parse_path "///home" = ["/"; "home"]
  ∧ parse_path "~/proj" = ["~"; "proj"]
  ∧ path_str (parse_path "") = "."
  ∧ relative_str (parse_path "/home/u/proj/a.txt") "/home/u/proj" = Ok "a.txt"
  ∧ relative_str (parse_path "/home/u/proj/a.txt") "~/proj" = Raise ValueError
  ∧ relative_str (parse_path "/a/b") "" = Raise ValueError.
Proof. vm_compute. repeat split; reflexivity. Qed.

Example far_glob_txt :
  far_glob demo "/home/u/proj" ["*.txt"] [] = Ok ["a.txt"; "sub/b.txt"].
Proof. vm_compute. reflexivity. Qed.

Example far_glob_ignore :
  far_glob demo "/home/u/proj" ["*"] ["sub/c.log"]
  = Ok ["a.txt"; "sub/b.txt"].
Proof. vm_compute. reflexivity. Qed.

Example far_glob_exception :
  far_glob demo "/home/u/proj" ["*"] ["sub/"; "!sub/b.txt"]
  = Ok ["a.txt"; "sub/b.txt"].
Proof. vm_compute. reflexivity. Qed.

Example load_ignore_rules_demo :
  load_ignore_rules demo "~/.farignore" = Ok ["valid.txt"]
  ∧ load_ignore_rules demo "~/missing"
    = Raise (IgnoreFileError FileNotFoundError)
  ∧ load_ignore_rules demo "~/proj" = Raise IsADirectoryError
  ∧ load_ignore_rules demo "~/.secret" = Raise PermissionError
  ∧ load_ignore_rules demo "~/.binary" = Raise UnicodeDecodeError
  ∧ load_ignore_rules demo ("~" ++ [nul] ++ "x") = Raise ValueError.
Proof. vm_compute. repeat split; reflexivity. Qed.

(** *** The properties at concrete inputs *)

(** The selection for the rule ["*"] with the ignore rules ["sub/"] and
    ["!sub/b.txt"]. *)
Lemma far_glob_selection_witness :
  far_glob demo "/home/u/proj" ["*"] ["sub/"; "!sub/b.txt"]
  = Ok ["a.txt"; "sub/b.txt"]
  ∧ ∃ Included Ignored Excepted : gset path,
      included demo "/home/u/proj" ["*"] = Ok Included
      ∧ ignored demo "/home/u/proj" ["sub/"; "!sub/b.txt"] = Ok Ignored
      ∧ exception_ignored demo "/home/u/proj" ["sub/"; "!sub/b.txt"]
        = Ok Excepted
      ∧ (∀ f, f ∈ Included →
           (∃ name, relative_str f "/home/u/proj" = Ok name
                    ∧ name ∈ ["a.txt"; "sub/b.txt"])
           ↔ f ∉ Ignored ∨ (f ∈ Ignored ∧ f ∈ Excepted))
      ∧ (∀ name, name ∈ ["a.txt"; "sub/b.txt"] ↔
           ∃ f, f ∈ (Included ∖ Ignored) ∪ (Included ∩ Ignored ∩ Excepted)
                ∧ relative_str f "/home/u/proj" = Ok name).
Proof.
  assert (far_glob demo "/home/u/proj" ["*"] ["sub/"; "!sub/b.txt"]
          = Ok ["a.txt"; "sub/b.txt"]) as Hcall
    by (vm_compute; reflexivity).
  split; [exact Hcall|].
  exact (far_glob_selection demo "/home/u/proj" ["*"]
           ["sub/"; "!sub/b.txt"] ["a.txt"; "sub/b.txt"] Hcall).
Defined.

(** C2: the tilde is expanded for the globbing, yet with the home
    directory written as a tilde the call raises, while with the expanded
    root it returns the files. *)
Theorem far_glob_tilde_root_raises :
  expanduser demo (parse_path "~/proj") = Ok (parse_path "/home/u/proj")
  ∧ far_glob demo "~/proj" ["*"] [] = Raise ValueError
  ∧ far_glob demo "/home/u/proj" ["*"] []
    = Ok ["a.txt"; "sub/b.txt"; "sub/c.log"].
Proof. vm_compute. repeat split; reflexivity. Qed.

(** C3: on the empty rule [proc] and [exception_ignore] raise
    IndexError instead of returning; the empty rule also reaches [proc]
    from inside the resolver, where [exception_ignore] makes it of an
    ignore rule that is a lone exclamation mark. *)
Theorem proc_exception_ignore_empty_rule :
  proc [""] = Raise IndexError
  ∧ exception_ignore [""] = Raise IndexError
  ∧ exception_ignore ["!"] = Ok ([], [""])
  ∧ far_glob demo "/home/u/proj" ["*"] ["!"] = Raise IndexError.
Proof. vm_compute. repeat split; reflexivity. Qed.

(** The path runs through the regular file a.txt: it names nothing, and
    [open] answers NotADirectoryError, which is not wrapped; so does the
    ValueError for a path that holds a NUL character. *)
Lemma load_ignore_rules_not_wrapped :
  lookup_path demo "/home/u/proj/a.txt/x" = None
  ∧ load_ignore_rules demo "/home/u/proj/a.txt/x" = Raise NotADirectoryError
  ∧ lookup_path demo ("/home/u/" ++ [nul]) = None
  ∧ load_ignore_rules demo ("/home/u/" ++ [nul]) = Raise ValueError.
Proof. vm_compute. repeat split; reflexivity. Qed.

(** A rule file that is missing. *)
Lemma load_ignore_rules_outcome_witness :
  (∀ e, open_expanded demo "~/missing" ≠ Raise (IgnoreFileError e))
  ∧ (open_expanded demo "~/missing" = Raise FileNotFoundError ↔
     load_ignore_rules demo "~/missing"
     = Raise (IgnoreFileError FileNotFoundError))
  ∧ (∀ e, load_ignore_rules demo "~/missing" = Raise (IgnoreFileError e) →
          open_expanded demo "~/missing" = Raise FileNotFoundError
          ∧ e = FileNotFoundError)
  ∧ (∀ e, open_expanded demo "~/missing" = Raise e →
          e ≠ FileNotFoundError →
          load_ignore_rules demo "~/missing" = Raise e)
  ∧ (∀ lines, open_expanded demo "~/missing" = Ok lines →
              load_ignore_rules demo "~/missing" = Ok (kept_lines lines)).
Proof.
  assert (∀ e, open_expanded demo "~/missing" ≠ Raise (IgnoreFileError e))
    as Hopen by (intros e; vm_compute; discriminate).
  split; [exact Hopen|].
  exact (load_ignore_rules_outcome demo "~/missing" Hopen).
Defined.

(** One pass on a rule with two groups replaces the second group, not
    the first, and the result of [parse_or] is ordered accordingly. *)
Lemma expand_pass_not_first_group :
  expand_pass ["(a|b)-(c|d)"] = (["(a|b)-c"; "(a|b)-d"], true)
  ∧ fst (expand_pass ["(a|b)-(c|d)"]) ≠ replace_group "" ["a"; "b"] "-(c|d)"
  ∧ parse_or ["(a|b)-(c|d)"] = ["a-c"; "b-c"; "a-d"; "b-d"].
Proof. vm_compute. repeat split; [discriminate]. Qed.

(** The two passes on the same rule. *)
Lemma expand_pass_last_group_first_witness :
  (alternatives ["a"; "b"] ∧ alternatives ["c"; "d"]
   ∧ one_line ("" ++ "-" ++ "") ∧ ¬ has_group ""
   ∧ Forall (λ alt, ¬ has_group ("-" ++ alt ++ "")) ["c"; "d"])
  ∧ expand_pass ["(a|b)-(c|d)"] = (["(a|b)-c"; "(a|b)-d"], true)
  ∧ expand_pass ["(a|b)-c"; "(a|b)-d"]
    = (["a-c"; "b-c"; "a-d"; "b-d"], true).
Proof.
  assert (alternatives ["a"; "b"]) as H1 by compute_done.
  assert (alternatives ["c"; "d"]) as H2 by compute_done.
  assert (one_line ("" ++ "-" ++ "")) as H3 by compute_done.
  assert (¬ has_group "") as H4 by compute_done.
  assert (Forall (λ alt, ¬ has_group ("-" ++ alt ++ "")) ["c"; "d"]) as H5
    by compute_done.
  split; [done|].
  exact (expand_pass_last_group_first "" ["a"; "b"] "-" ["c"; "d"] ""
           H1 H2 H3 H4 H5).
Defined.

(** The anywhere rule ["xx"]. *)
Lemma proc_anywhere_rule_witness :
  ("xx" ≠ "" ∧ ¬ has_group "xx" ∧ ¬ "/" `prefix_of` "xx"
   ∧ ¬ "/" `suffix_of` "xx" ∧ ¬ "/**" `suffix_of` "xx"
   ∧ ¬ "/**/" `suffix_of` "xx")
  ∧ proc ["xx"] = Ok ["**/xx/**/*"; "**/xx"].
Proof.
  assert ("xx" ≠ "") as H1 by compute_done.
  assert (¬ has_group "xx") as H2 by compute_done.
  assert (¬ "/" `prefix_of` "xx") as H3 by compute_done.
  assert (¬ "/" `suffix_of` "xx") as H4 by compute_done.
  assert (¬ "/**" `suffix_of` "xx") as H5 by compute_done.
  assert (¬ "/**/" `suffix_of` "xx") as H6 by compute_done.
  split; [done|].
  exact (proc_anywhere_rule "xx" H1 H2 H3 H4 H5 H6).
Defined.

(** The call that returns all three files. *)
Lemma far_glob_sorted_nodup_witness :
  far_glob demo "/home/u/proj" ["*"] []
  = Ok ["a.txt"; "sub/b.txt"; "sub/c.log"]
  ∧ StronglySorted str_le ["a.txt"; "sub/b.txt"; "sub/c.log"]
  ∧ NoDup ["a.txt"; "sub/b.txt"; "sub/c.log"].
Proof.
  assert (far_glob demo "/home/u/proj" ["*"] []
          = Ok ["a.txt"; "sub/b.txt"; "sub/c.log"]) as Hcall
    by (vm_compute; reflexivity).
  split; [exact Hcall|].
  exact (far_glob_sorted_nodup demo "/home/u/proj" ["*"] []
           ["a.txt"; "sub/b.txt"; "sub/c.log"] Hcall).
Defined.

(** A rule whose only parenthesised text has the alternative ["a.b"]. *)
Lemma parse_or_keeps_other_parentheses_witness :
  (∀ pre body post, "(a.b|c)" = pre ++ "(" ++ body ++ ")" ++ post →
     ∃ alt c, alt ∈ split "|" body ∧ c ∈ alt ∧ is_word c = false)
  ∧ parse_or ["(a.b|c)"] = ["(a.b|c)"].
Proof.
  assert (∀ pre body post, "(a.b|c)" = pre ++ "(" ++ body ++ ")" ++ post →
            ∃ alt c, alt ∈ split "|" body ∧ c ∈ alt ∧ is_word c = false)
    as Hall.
  { intros pre body post Heq. exists "a.b", "."%char.
    repeat (destruct pre as [|? pre]; simplify_eq/=).
    repeat (destruct body as [|? body]; simplify_eq/=).
    vm_compute. repeat split; [left|right; left]. }
  split; [exact Hall|].
  exact (parse_or_keeps_other_parentheses "(a.b|c)" Hall).
Defined.

(** *** Further properties at concrete inputs *)

Example rg_rules_glob_probes :
  rg_rules_glob ["*"; "**/*"; "src/**/*"; "a b"] false
  = Args ["-g"; "src/**/*"; "-g"; "a b"]
  ∧ rg_rules_glob ["*"; "src/**/*"] true
    = Joined ("-g " ++ quote ++ "src/**/*" ++ quote)
  ∧ rg_rules_glob ["*"] true = Joined ""
  ∧ rg_rules_glob ["*"] false = Args [].
Proof. vm_compute. repeat split; reflexivity. Qed.

Example rg_ignore_globs_probes :
  rg_ignore_globs demo remove_dups ["/home/u/.farignore"; "/nope"] false
  = Ok (Args ["-g"; "!//old-rule"; "-g"; "!valid.txt"])
  ∧ rg_ignore_globs demo remove_dups ["/home/u/.farignore"; "/home/u"] true
    = Raise IsADirectoryError
  ∧ rg_ignore_globs demo remove_dups ["/nope"; "/home/u/.binary"] true
    = Raise UnicodeDecodeError
  ∧ rg_ignore_globs demo remove_dups ["/home/u/proj/a.txt/x"] true
    = Ok (Joined "")
  ∧ rg_ignore_globs demo remove_dups [] true = Ok (Joined "").
Proof. vm_compute. repeat split; reflexivity. Qed.

Example strict_probes :
  far_glob strict "/home/u/proj" ["//x"] [] = Raise NotImplementedError
  ∧ glob_rules strict "/home/u/proj" [""] = Raise (GlobError ValueError)
  ∧ glob_rules strict ("~" ++ [nul] ++ "x") ["*"] = Raise ValueError
  ∧ glob_rules strict "~nobody" ["*"] = Raise RuntimeError.
Proof. vm_compute. repeat split; reflexivity. Qed.


(** Two rules to ignore around an exception. *)
Lemma exception_ignore_partition_witness :
  Forall (λ rule : str, rule ≠ "") ["sub/"; "!sub/b.txt"; "x"]
  ∧ exception_ignore ["sub/"; "!sub/b.txt"; "x"]
    = Ok (filter (λ rule, ¬ "!" `prefix_of` rule)
            ["sub/"; "!sub/b.txt"; "x"],
          drop 1 <$> filter (λ rule, "!" `prefix_of` rule)
                       ["sub/"; "!sub/b.txt"; "x"]).
Proof.
  assert (Forall (λ rule : str, rule ≠ "") ["sub/"; "!sub/b.txt"; "x"])
    as Hne by (repeat constructor; discriminate).
  split; [exact Hne|].
  exact (exception_ignore_partition ["sub/"; "!sub/b.txt"; "x"] Hne).
Defined.

(** The rule for one file of the root. *)
Lemma proc_root_relative_witness :
  (¬ has_group ("/" ++ "src/main.c")
   ∧ ¬ "/" `suffix_of` "/" ++ "src/main.c"
   ∧ ¬ "/**" `suffix_of` "/" ++ "src/main.c")
  ∧ proc ["/" ++ "src/main.c"] = Ok ["src/main.c"].
Proof.
  assert (¬ has_group ("/" ++ "src/main.c")) as H1 by compute_done.
  assert (¬ "/" `suffix_of` "/" ++ "src/main.c") as H2 by compute_done.
  assert (¬ "/**" `suffix_of` "/" ++ "src/main.c") as H3 by compute_done.
  split; [exact (conj H1 (conj H2 H3))|].
  exact (proc_root_relative "src/main.c" H1 H2 H3).
Defined.

(** The two ways to name the directory build. *)
Lemma proc_dir_synonyms_witness :
  ¬ has_group "build" ∧ proc ["build" ++ "/"] = proc ["build" ++ "/**"].
Proof.
  assert (¬ has_group "build") as H1 by compute_done.
  split; [exact H1|].
  exact (proc_dir_synonyms "build" H1).
Defined.

(** One glob for the first rule, two for each rule of the expansion of
    the second. *)
Lemma proc_globs_bounds_witness :
  proc ["/a"; "b(c|d)"]
  = Ok ["a"; "**/bc/**/*"; "**/bc"; "**/bd/**/*"; "**/bd"]
  ∧ Forall (λ glob : str, glob ≠ "")
      ["a"; "**/bc/**/*"; "**/bc"; "**/bd/**/*"; "**/bd"]
  ∧ length (parse_or ["/a"; "b(c|d)"])
    ≤ length ["a"; "**/bc/**/*"; "**/bc"; "**/bd/**/*"; "**/bd"]
    ≤ 2 * length (parse_or ["/a"; "b(c|d)"]).
Proof.
  assert (proc ["/a"; "b(c|d)"]
          = Ok ["a"; "**/bc/**/*"; "**/bc"; "**/bd/**/*"; "**/bd"]) as Hcall
    by (vm_compute; reflexivity).
  split; [exact Hcall|].
  exact (proc_globs_bounds ["/a"; "b(c|d)"]
           ["a"; "**/bc/**/*"; "**/bc"; "**/bd/**/*"; "**/bd"] Hcall).
Defined.

Lemma glob_rules_demo (rules : list str) :
  glob_rules demo "/home/u/proj" rules
  = Ok (list_to_set
          (filter (λ f, is_file demo f = true)
             (rules ≫= matches_of demo ["/"; "home"; "u"; "proj"]))).
Proof.
  apply glob_rules_Ok_iff. exists ["/"; "home"; "u"; "proj"].
  split; [vm_compute; reflexivity|]. split; [|done].
  apply Forall_forall. intros rule _. unfold accepted, glob. simpl.
  unfold demo_scan. repeat case_bool_decide; by eexists.
Qed.

(** The files with the suffix txt. *)
Lemma glob_rules_elem_of_witness :
  glob_rules demo "/home/u/proj" ["**/*.txt"]
  = Ok (list_to_set
          (filter (λ f, is_file demo f = true)
             (["**/*.txt"] ≫= matches_of demo ["/"; "home"; "u"; "proj"])))
  ∧ ∃ p, expanduser demo (parse_path "/home/u/proj") = Ok p
         ∧ ∀ f, f ∈ (list_to_set
                       (filter (λ f, is_file demo f = true)
                          (["**/*.txt"]
                             ≫= matches_of demo ["/"; "home"; "u"; "proj"]))
                     : gset path) ↔
                is_file demo f = true
                ∧ ∃ rule matches, rule ∈ ["**/*.txt"]
                    ∧ glob demo p rule = Ok matches ∧ f ∈ matches.
Proof.
  pose proof (glob_rules_demo ["**/*.txt"]) as Hcall.
  split; [exact Hcall|].
  exact (glob_rules_elem_of demo "/home/u/proj" ["**/*.txt"] _ Hcall).
Defined.


(** Two globs, in both orders. *)
Lemma glob_rules_order_witness :
  (["**/*.txt"; "**/sub/c.log"] ≡ₚ ["**/sub/c.log"; "**/*.txt"]
   ∧ glob_rules demo "/home/u/proj" ["**/*.txt"; "**/sub/c.log"]
     = Ok (list_to_set
             (filter (λ f, is_file demo f = true)
                (["**/*.txt"; "**/sub/c.log"]
                   ≫= matches_of demo ["/"; "home"; "u"; "proj"]))))
  ∧ glob_rules demo "/home/u/proj" ["**/sub/c.log"; "**/*.txt"]
    = Ok (list_to_set
            (filter (λ f, is_file demo f = true)
               (["**/*.txt"; "**/sub/c.log"]
                  ≫= matches_of demo ["/"; "home"; "u"; "proj"]))).
Proof.
  assert (["**/*.txt"; "**/sub/c.log"] ≡ₚ ["**/sub/c.log"; "**/*.txt"])
    as Hperm by apply perm_swap.
  pose proof (glob_rules_demo ["**/*.txt"; "**/sub/c.log"]) as Hcall.
  split; [exact (conj Hperm Hcall)|].
  exact (glob_rules_order demo "/home/u/proj" _ _ _ Hperm Hcall).
Defined.

(** The rules of the selection above, each list in the other order. *)
Lemma far_glob_order_witness :
  (["*.txt"; "sub/c.log"] ≡ₚ ["sub/c.log"; "*.txt"]
   ∧ ["sub/"; "!sub/b.txt"] ≡ₚ ["!sub/b.txt"; "sub/"]
   ∧ far_glob demo "/home/u/proj" ["*.txt"; "sub/c.log"]
       ["sub/"; "!sub/b.txt"]
     = Ok ["a.txt"; "sub/b.txt"])
  ∧ far_glob demo "/home/u/proj" ["sub/c.log"; "*.txt"]
      ["!sub/b.txt"; "sub/"]
    = Ok ["a.txt"; "sub/b.txt"].
Proof.
  assert (["*.txt"; "sub/c.log"] ≡ₚ ["sub/c.log"; "*.txt"]) as H1
    by apply perm_swap.
  assert (["sub/"; "!sub/b.txt"] ≡ₚ ["!sub/b.txt"; "sub/"]) as H2
    by apply perm_swap.
  assert (far_glob demo "/home/u/proj" ["*.txt"; "sub/c.log"]
            ["sub/"; "!sub/b.txt"]
          = Ok ["a.txt"; "sub/b.txt"]) as Hcall
    by (vm_compute; reflexivity).
  split; [exact (conj H1 (conj H2 Hcall))|].
  exact (far_glob_order demo "/home/u/proj" _ _ _ _ _ H1 H2 Hcall).
Defined.

(** An exception without a rule to ignore. *)
Lemma far_glob_exceptions_only_witness :
  (Forall (λ rule : str, "!" `prefix_of` rule) ["!sub/b.txt"]
   ∧ far_glob demo "/home/u/proj" ["*"] ["!sub/b.txt"]
     = Ok ["a.txt"; "sub/b.txt"; "sub/c.log"])
  ∧ far_glob demo "/home/u/proj" ["*"] []
    = Ok ["a.txt"; "sub/b.txt"; "sub/c.log"].
Proof.
  assert (Forall (λ rule : str, "!" `prefix_of` rule) ["!sub/b.txt"]) as H1
    by compute_done.
  assert (far_glob demo "/home/u/proj" ["*"] ["!sub/b.txt"]
          = Ok ["a.txt"; "sub/b.txt"; "sub/c.log"]) as Hcall
    by (vm_compute; reflexivity).
  split; [exact (conj H1 Hcall)|].
  exact (far_glob_exceptions_only demo "/home/u/proj" ["*"] ["!sub/b.txt"]
           _ H1 Hcall).
Defined.

(** A rule that matches nothing, below a root written with a tilde. *)
Lemma far_glob_tilde_empty_witness :
  (parse_path "~/proj" = "~" :: ["proj"]
   ∧ "~" `prefix_of` "~"
   ∧ "/" `prefix_of` os_expanduser demo "~"
   ∧ far_glob demo "~/proj" ["*.none"] [] = Ok [])
  ∧ ([] : list str) = [].
Proof.
  assert (parse_path "~/proj" = "~" :: ["proj"]) as H1
    by (vm_compute; reflexivity).
  assert ("~" `prefix_of` "~") as H2 by compute_done.
  assert ("/" `prefix_of` os_expanduser demo "~") as H3 by compute_done.
  assert (far_glob demo "~/proj" ["*.none"] [] = Ok []) as Hcall
    by (vm_compute; reflexivity).
  split; [exact (conj H1 (conj H2 (conj H3 Hcall)))|].
  exact (far_glob_tilde_empty demo "~/proj" ["*.none"] [] [] "~" ["proj"]
           H1 H2 H3 Hcall).
Defined.

(** One of the three files of the tree. *)
Lemma far_glob_names_witness :
  (far_glob demo "/home/u/proj" ["*"] []
   = Ok ["a.txt"; "sub/b.txt"; "sub/c.log"]
   ∧ "sub/b.txt" ∈ ["a.txt"; "sub/b.txt"; "sub/c.log"])
  ∧ ¬ "/" `prefix_of` "sub/b.txt" ∧ "sub/b.txt" ≠ ""
  ∧ ∃ p f, expanduser demo (parse_path "/home/u/proj") = Ok p
           ∧ p `prefix_of` f
           ∧ is_file demo f = true
           ∧ relative_str f "/home/u/proj" = Ok "sub/b.txt".
Proof.
  assert (far_glob demo "/home/u/proj" ["*"] []
          = Ok ["a.txt"; "sub/b.txt"; "sub/c.log"]) as Hcall
    by (vm_compute; reflexivity).
  assert ("sub/b.txt" ∈ ["a.txt"; "sub/b.txt"; "sub/c.log"]) as Hin
    by compute_done.
  split; [exact (conj Hcall Hin)|].
  exact (far_glob_names demo "/home/u/proj" ["*"] [] _ "sub/b.txt"
           Hcall Hin).
Defined.

(** A rule file with a line that is a lone exclamation mark. *)
Lemma load_ignore_rules_feeds_witness :
  load_ignore_rules demo "~/.keep" = Ok ["sub/"; "!"; "!sub/b.txt"]
  ∧ Forall (λ rule, rule ≠ "" ∧ strip rule = rule)
      ["sub/"; "!"; "!sub/b.txt"]
  ∧ ∃ ignore_rules exception_ignore_rules,
      exception_ignore ["sub/"; "!"; "!sub/b.txt"]
      = Ok (ignore_rules, exception_ignore_rules)
      ∧ ("" ∉ ignore_rules)
      ∧ ("" ∈ exception_ignore_rules ↔ "!" ∈ ["sub/"; "!"; "!sub/b.txt"])
      ∧ ("!" ∈ ["sub/"; "!"; "!sub/b.txt"] →
         ∀ globs, proc exception_ignore_rules ≠ Ok globs).
Proof.
  assert (load_ignore_rules demo "~/.keep" = Ok ["sub/"; "!"; "!sub/b.txt"])
    as Hcall by (vm_compute; reflexivity).
  split; [exact Hcall|].
  exact (load_ignore_rules_feeds demo "~/.keep" ["sub/"; "!"; "!sub/b.txt"]
           Hcall).
Defined.

(** Two rules and a catch-all rule. *)
Lemma rg_rules_glob_modes_witness :
  (Forall (λ rule : str, " "%char ∉ rule) ["*"; "src/**/*"; "*.c"]
   ∧ filter (λ r : str, r ∉ ["*"; "**/*"]) ["*"; "src/**/*"; "*.c"] ≠ [])
  ∧ ∃ text args,
      rg_rules_glob ["*"; "src/**/*"; "*.c"] true = Joined text
      ∧ rg_rules_glob ["*"; "src/**/*"; "*.c"] false
        = Args (args ≫= (λ d, ["-g"; d]))
      ∧ split " " text = args ≫= (λ d, ["-g"; quote ++ d ++ quote]).
Proof.
  assert (Forall (λ rule : str, " "%char ∉ rule) ["*"; "src/**/*"; "*.c"])
    as H1 by compute_done.
  assert (filter (λ r : str, r ∉ ["*"; "**/*"]) ["*"; "src/**/*"; "*.c"]
          ≠ []) as H2 by (vm_compute; discriminate).
  split; [exact (conj H1 H2)|].
  exact (rg_rules_glob_modes ["*"; "src/**/*"; "*.c"] H1 H2).
Defined.

(** The rule file of the tree and a file that is missing, the set being
    listed in the order of the first occurrences. *)
Lemma rg_ignore_globs_list_witness :
  (set_order_ok (remove_dups (A:=str))
   ∧ rg_ignore_globs demo remove_dups ["/home/u/.farignore"; "/nope"] false
     = Ok (Args ["-g"; "!//old-rule"; "-g"; "!valid.txt"]))
  ∧ ∃ ignored,
      ["-g"; "!//old-rule"; "-g"; "!valid.txt"]
      = ignored ≫= (λ d, ["-g"; "!" ++ d])
      ∧ NoDup ignored
      ∧ ∀ g, g ∈ ignored ↔
             strip g ≠ "" ∧ ("#"%char ∉ g)
             ∧ ∃ file lines, file ∈ ["/home/u/.farignore"; "/nope"]
                 ∧ path_exists demo file = true
                 ∧ open_r demo file = Ok lines
                 ∧ g ∈ split "010" (mjoin lines).
Proof.
  pose proof remove_dups_set_order_ok as H1.
  assert (rg_ignore_globs demo remove_dups
            ["/home/u/.farignore"; "/nope"] false
          = Ok (Args ["-g"; "!//old-rule"; "-g"; "!valid.txt"])) as Hcall
    by (vm_compute; reflexivity).
  split; [exact (conj H1 Hcall)|].
  exact (rg_ignore_globs_list demo remove_dups
           ["/home/u/.farignore"; "/nope"] _ H1 Hcall).
Defined.

(** One more include rule and one more exception. *)
Lemma far_glob_gains_witness :
  (Forall (λ rule : str, "!" `prefix_of` rule) ["!sub/b.txt"]
   ∧ far_glob demo "/home/u/proj" ["*.txt"] ["sub/"] = Ok ["a.txt"]
   ∧ far_glob demo "/home/u/proj" (["*.txt"] ++ ["sub/c.log"])
       (["sub/"] ++ ["!sub/b.txt"])
     = Ok ["a.txt"; "sub/b.txt"])
  ∧ ["a.txt"] ⊆ ["a.txt"; "sub/b.txt"].
Proof.
  assert (Forall (λ rule : str, "!" `prefix_of` rule) ["!sub/b.txt"]) as H1
    by compute_done.
  assert (far_glob demo "/home/u/proj" ["*.txt"] ["sub/"] = Ok ["a.txt"])
    as H2 by (vm_compute; reflexivity).
  assert (far_glob demo "/home/u/proj" (["*.txt"] ++ ["sub/c.log"])
            (["sub/"] ++ ["!sub/b.txt"])
          = Ok ["a.txt"; "sub/b.txt"]) as H3
    by (vm_compute; reflexivity).
  split; [exact (conj H1 (conj H2 H3))|].
  exact (far_glob_gains demo "/home/u/proj" ["*.txt"] ["sub/c.log"]
           ["sub/"] ["!sub/b.txt"] _ _ H1 H2 H3).
Defined.

(** One more rule to ignore. *)
Lemma far_glob_loses_witness :
  (Forall (λ rule : str, ¬ "!" `prefix_of` rule) ["sub/c.log"]
   ∧ far_glob demo "/home/u/proj" ["*"] []
     = Ok ["a.txt"; "sub/b.txt"; "sub/c.log"]
   ∧ far_glob demo "/home/u/proj" ["*"] ([] ++ ["sub/c.log"])
     = Ok ["a.txt"; "sub/b.txt"])
  ∧ ["a.txt"; "sub/b.txt"] ⊆ ["a.txt"; "sub/b.txt"; "sub/c.log"].
Proof.
  assert (Forall (λ rule : str, ¬ "!" `prefix_of` rule) ["sub/c.log"])
    as H1 by compute_done.
  assert (far_glob demo "/home/u/proj" ["*"] []
          = Ok ["a.txt"; "sub/b.txt"; "sub/c.log"]) as H2
    by (vm_compute; reflexivity).
  assert (far_glob demo "/home/u/proj" ["*"] ([] ++ ["sub/c.log"])
          = Ok ["a.txt"; "sub/b.txt"]) as H3
    by (vm_compute; reflexivity).
  split; [exact (conj H1 (conj H2 H3))|].
  exact (far_glob_loses demo "/home/u/proj" ["*"] [] ["sub/c.log"] _ _
           H1 H2 H3).
Defined.

End Concrete.
